(** * Studio channel editor: content-node actions, undo affordance and
  change tracking

  A shallow embedding of
  - [shared/data/constants.js] (module [Constants]),
  - [channelEdit/vuex/contentNode/actions.js] (module [Actions]),
  - the tracked methods of [channelEdit/components/ContentNodeOptions.vue]
    (module [Options]),
  - the other actions of [actions.js]: loading, creating, tagging,
    deleting and moving nodes, and the check of the saving progress
    (module [NodeActions]),
  - the template of [ContentNodeOptions.vue] (module [Menu]),
  - [shared/vuex/draggablePlugin/index.js] (module [DraggablePlugin]),
  - the handlers of the draggable container mixin (module
    [DraggableMixin]),
  together with a model of the change log and change tracker, whose
  implementation ([shared/data/changes]) is only imported by these files
  (module [Changes]).

  JavaScript objects are finite maps from property names to values,
  promises are outcomes threaded through the history of the calls made to
  the collaborators (the resource layer, the Vuex store). *)

From Stdlib Require Import ZArith String List Lia.
From stdpp Require Import base option gmap strings list sorting.

Set Warnings "-register-all".

(* ===================================================================== *)
(** ** shared/data/constants.js *)
(* ===================================================================== *)

Module Constants.

Inductive change_type := CREATED | UPDATED | DELETED | MOVED | COPIED.

(** The numeric codes of [CHANGE_TYPES]. *)
Definition CHANGE_TYPES (t : change_type) : Z :=
  match t with
  | CREATED => 1
  | UPDATED => 2
  | DELETED => 3
  | MOVED => 4
  | COPIED => 5
  end.

Definition CHANGES_TABLE : string := "__changesForSyncing".
Definition CHANGE_LOCKS_TABLE : string := "__changeLocks".

(** The entries of [TABLE_NAMES] the actions use. *)
Definition TABLE_CONTENTNODE : string := "contentnode".
Definition TABLE_ASSESSMENTITEM : string := "assessmentitem".
Definition TABLE_FILE : string := "file".

Definition IGNORED_SOURCE : string := "IGNORED_SOURCE".
Definition REVERT_SOURCE : string := "REVERT/" +:+ IGNORED_SOURCE.

Inductive relative_position := FIRST_CHILD | LAST_CHILD | LEFT | RIGHT.

Definition RELATIVE_TREE_POSITIONS (p : relative_position) : string :=
  match p with
  | FIRST_CHILD => "first-child"
  | LAST_CHILD => "last-child"
  | LEFT => "left"
  | RIGHT => "right"
  end.

#[global] Instance change_type_eq_dec : EqDecision change_type.
Proof. solve_decision. Defined.

#[global] Instance relative_position_eq_dec : EqDecision relative_position.
Proof. solve_decision. Defined.

End Constants.

(* ===================================================================== *)
(** ** JavaScript values, errors and promises *)
(* ===================================================================== *)

Module Js.

Inductive jsval :=
| JUndefined
| JNull
| JBool (b : bool)
| JNum (n : Z)
| JStr (s : string)
| JSym (description : string)
| JArr (items : list jsval)
| JObj (props : gmap string jsval).

(** An object literal or an argument object. *)
Abbreviation jsobject := (gmap string jsval).

(** [if (v)] and [!v]. *)
Definition truthy (v : jsval) : bool :=
  match v with
  | JUndefined | JNull => false
  | JBool b => b
  | JNum n => negb (n =? 0)%Z
  | JStr s => negb (String.eqb s "")
  | JSym _ | JArr _ | JObj _ => true
  end.

(** [o.k] on an object: a missing property reads as [undefined]. *)
Definition get (o : jsobject) (k : string) : jsval :=
  default JUndefined (o !! k).

Inductive js_error :=
| TypeError (msg : string)
| ReferenceError (msg : string)
| Error (msg : string)
| Failure (reason : jsval).

(** What a call yields: a value (for a promise, its resolution), a
    rejected promise, or an exception thrown before any promise exists. *)
Inductive outcome (A : Type) :=
| Resolved (a : A)
| Rejected (e : js_error)
| Thrown (e : js_error).
Arguments Resolved {A} a.
Arguments Rejected {A} e.
Arguments Thrown {A} e.

(** [v.k] on any value: reading a property of [null] or [undefined]
    throws, a primitive has none of the properties read here. *)
Definition get_prop (v : jsval) (k : string) : outcome jsval :=
  match v with
  | JObj props => Resolved (get props k)
  | JUndefined | JNull =>
      Thrown (TypeError ("Cannot read property '" +:+ k +:+ "' of null"))
  | _ => Resolved JUndefined
  end.

(** [o.k = v] on a value known to be an object. *)
Definition set_prop (o : jsval) (k : string) (v : jsval) : jsval :=
  match o with
  | JObj props => JObj (<[k := v]> props)
  | _ => o
  end.

End Js.

(* ===================================================================== *)
(** ** channelEdit/vuex/contentNode/actions.js *)
(* ===================================================================== *)

Module Actions.
Import Constants Js.

(** A content node as the resource layer returns it. *)
Record node := { id : string; source_id : string }.

(** The [children] argument of [copyContentNode]: [{ id, children }]. *)
Inductive child := Child (child_id : string) (child_children : list child).

(** The payloads of [context.commit]. *)
Inductive mutation :=
| ADD_CONTENTNODES (nodes : list node)
| UPDATE_CONTENTNODE (payload : jsobject).

(** A call on a change tracker: [tracker.revert(...args)]. *)
Inductive tracker_call := Revert (tracker : string) (args : list jsval).

(** The options of [showSnackbar]; [actionCallback] is a function of the
    arguments it is called with. *)
Record snackbar := {
  duration : option jsval;
  text : string;
  actionText : string;
  actionCallback : list jsval → tracker_call;
}.

(** The payloads of [context.dispatch] and of the mapped actions. *)
Inductive action :=
| copyContentNode_action
    (id target : string) (position : option relative_position) (deep : bool)
| copyAssessmentItems (contentnode__in : list string) (nodeMap : gmap string node)
| copyFiles (contentnode__in : list string) (nodeMap : gmap string node)
| moveContentNodes_action (id__in : list string) (parent : string)
| clipboard_copy (node_id channel_id : jsval)
| showSnackbar (options : snackbar).

(** Every call that leaves the action, in the order it is made. *)
Inductive event :=
| Commit (m : mutation)
| Dispatch (a : action)
| DispatchAll (calls : list action)
| ResourceCopy (id target : string) (position : relative_position) (deep : bool)
| ResourceUpdate (id : jsval) (changes : jsobject).

Definition history := list event.

(** What the actions take from outside: the symbol [NOVALUE] of
    [shared/constants] (symbols are told apart by the name given here),
    [JSON.stringify], the [ContentNode] resource and the other store
    modules' actions. What a call answers may depend on everything that
    happened so far. *)
Record collaborators := {
  NOVALUE_symbol : string;
  JSON_stringify : jsval → jsval;
  ContentNode_copy :
    history → string → string → relative_position → bool → outcome (list node);
  ContentNode_update : history → jsval → jsobject → outcome jsval;
  dispatched : history → action → outcome jsval;
}.

(** A computation in the action: it reads and extends the history. *)
Definition M (A : Type) := history → outcome A * history.

Definition resolve {A} (a : A) : M A := fun h => (Resolved a, h).
Definition reject {A} (e : js_error) : M A := fun h => (Rejected e, h).
Definition throw {A} (e : js_error) : M A := fun h => (Thrown e, h).

(** [promise.then(f)]: [f] runs on resolution; an exception inside [f]
    rejects the resulting promise. *)
Definition then_ {A B} (m : M A) (f : A → M B) : M B := fun h =>
  match m h with
  | (Resolved a, h') =>
      match f a h' with
      | (Thrown e, h'') => (Rejected e, h'')
      | r => r
      end
  | (Rejected e, h') => (Rejected e, h')
  | (Thrown e, h') => (Thrown e, h')
  end.

Definition emit (e : event) : M unit := fun h => (Resolved tt, h ++ [e]).

Definition commit (m : mutation) : M unit := emit (Commit m).

Definition dispatch (E : collaborators) (a : action) : M jsval := fun h =>
  (dispatched E h a, h ++ [Dispatch a]).

(** [Promise.all(calls.map(dispatch))]: the calls are issued together and
    awaited together; the first failure fails the whole. *)
Fixpoint all_outcomes {A} (l : list (outcome A)) : outcome (list A) :=
  match l with
  | [] => Resolved []
  | Resolved a :: l' =>
      match all_outcomes l' with
      | Resolved r => Resolved (a :: r)
      | Rejected e => Rejected e
      | Thrown e => Thrown e
      end
  | Rejected e :: _ => Rejected e
  | Thrown e :: _ => Thrown e
  end.

Definition dispatch_all (E : collaborators) (calls : list action)
  : M (list jsval) := fun h =>
  (all_outcomes (map (dispatched E h) calls), h ++ [DispatchAll calls]).

(** [Promise.all(l.map(f))] over direct calls: the calls run one after the
    other, in list order, and the first failure fails the whole; how their
    asynchronous parts interleave is left out. *)
Fixpoint all_in_order {A B} (f : A → M B) (l : list A) : M (list B) :=
  match l with
  | [] => resolve []
  | x :: l' =>
      then_ (f x) (fun r =>
      then_ (all_in_order f l') (fun rs => resolve (r :: rs)))
  end.

(** Modelled from the spec: lodash's [chunk], used by [promiseChunk] of
    [shared/utils/helpers], which is not among the sources: consecutive
    groups of [size] elements, the last one possibly shorter. *)
Fixpoint chunk_fuel {A} (fuel size : nat) (l : list A) : list (list A) :=
  match fuel with
  | 0 => []
  | S fuel' =>
      match l with
      | [] => []
      | _ :: _ => take size l :: chunk_fuel fuel' size (drop size l)
      end
  end.

Definition chunk {A} (size : nat) (l : list A) : list (list A) :=
  match size with
  | 0 => []
  | S _ => chunk_fuel (length l) size l
  end.

(** Modelled from the spec: [promiseChunk(things, chunkSize, callback)] of
    [shared/utils/helpers], which is not among the sources: the bounded-size
    groups are handed to [callback] one after the other, in order, each
    after the previous group has resolved, and the results are
    concatenated. *)
Definition promiseChunk {A B} (things : list A) (chunkSize : nat)
    (callback : list A → M (list B)) : M (list B) :=
  fold_left
    (fun promise thingChunk =>
       then_ promise (fun results =>
       then_ (callback thingChunk) (fun chunkResults =>
       resolve (results ++ chunkResults))))
    (chunk chunkSize things)
    (resolve []).

(** *** generateContentNodeData *)

(** The sentinel [NOVALUE]. *)
Definition NOVALUE (E : collaborators) : jsval := JSym (NOVALUE_symbol E).

(** [v === NOVALUE] *)
Definition is_NOVALUE (E : collaborators) (v : jsval) : bool :=
  match v with
  | JSym d => String.eqb d (NOVALUE_symbol E)
  | _ => false
  end.

(** A destructured parameter with default [NOVALUE]: the default applies
    when the property is missing or [undefined]. *)
Definition param (E : collaborators) (payload : jsobject) (name : string)
  : jsval :=
  match payload !! name with
  | None | Some JUndefined => NOVALUE E
  | Some v => v
  end.

(** [if (name !== NOVALUE) { contentNodeData.name = name; }] *)
Definition copy_field (E : collaborators) (payload : jsobject) (name : string)
    (contentNodeData : jsobject) : jsobject :=
  let v := param E payload name in
  if is_NOVALUE E v then contentNodeData else <[name := v]> contentNodeData.

(** [if (extra_fields.k) { contentNodeData.extra_fields.k = extra_fields.k; }] *)
Definition copy_extra_field (extra_fields : jsval) (k : string)
    (acc : outcome jsval) : outcome jsval :=
  match acc with
  | Resolved target =>
      match get_prop extra_fields k with
      | Resolved v => Resolved (if truthy v then set_prop target k v else target)
      | Rejected e => Rejected e
      | Thrown e => Thrown e
      end
  | failed => failed
  end.

(** [if (thumbnail_encoding !== NOVALUE) {
      contentNodeData.thumbnail_encoding = JSON.stringify(thumbnail_encoding); }] *)
Definition copy_thumbnail_encoding (E : collaborators) (payload : jsobject)
    (contentNodeData : jsobject) : jsobject :=
  let thumbnail_encoding := param E payload "thumbnail_encoding" in
  if is_NOVALUE E thumbnail_encoding then contentNodeData
  else <["thumbnail_encoding" := JSON_stringify E thumbnail_encoding]>
         contentNodeData.

(** The [extra_fields] block: [contentNodeData.extra_fields] starts from the
    object already there or from [{}], and receives the truthy [type], [m],
    [n] and [randomize] of the argument. *)
Definition copy_extra_fields (E : collaborators) (payload : jsobject)
    (contentNodeData : jsobject) : outcome jsobject :=
  let extra_fields := param E payload "extra_fields" in
  if is_NOVALUE E extra_fields then Resolved contentNodeData
  else
    let target :=
      if truthy (get contentNodeData "extra_fields")
      then get contentNodeData "extra_fields" else JObj ∅ in
    match
      copy_extra_field extra_fields "randomize"
        (copy_extra_field extra_fields "n"
           (copy_extra_field extra_fields "m"
              (copy_extra_field extra_fields "type" (Resolved target))))
    with
    | Resolved target' => Resolved (<["extra_fields" := target']> contentNodeData)
    | Rejected e => Rejected e
    | Thrown e => Thrown e
    end.

Definition generateContentNodeData (E : collaborators) (payload : jsobject)
  : outcome jsobject :=
  let contentNodeData : jsobject := ∅ in
  let contentNodeData := copy_field E payload "title" contentNodeData in
  let contentNodeData := copy_field E payload "description" contentNodeData in
  let contentNodeData := copy_thumbnail_encoding E payload contentNodeData in
  let contentNodeData := copy_field E payload "language" contentNodeData in
  let contentNodeData := copy_field E payload "license" contentNodeData in
  let contentNodeData := copy_field E payload "license_description" contentNodeData in
  let contentNodeData := copy_field E payload "copyright_holder" contentNodeData in
  let contentNodeData := copy_field E payload "author" contentNodeData in
  let contentNodeData := copy_field E payload "role_visibility" contentNodeData in
  let contentNodeData := copy_field E payload "aggregator" contentNodeData in
  let contentNodeData := copy_field E payload "provider" contentNodeData in
  match copy_extra_fields E payload contentNodeData with
  | Resolved contentNodeData =>
      let contentNodeData := copy_field E payload "prerequisite" contentNodeData in
      let contentNodeData := copy_field E payload "complete" contentNodeData in
      Resolved
        (if Nat.eqb (size contentNodeData) 0 then contentNodeData
         else <["changed" := JBool true]> contentNodeData)
  | failed => failed
  end.

(** *** updateContentNode

    [arg] is the argument object [{ id, ...payload }]. *)
Definition updateContentNode (E : collaborators) (arg : jsobject) : M jsval :=
  let id := get arg "id" in
  let payload := delete "id" arg in
  if negb (truthy id) then
    throw (ReferenceError "id must be defined to update a contentNode")
  else
    match generateContentNodeData E payload with
    | Resolved contentNodeData =>
        fun h =>
          let h1 :=
            h ++ [Commit (UPDATE_CONTENTNODE (contentNodeData ∪ {["id" := id]}))] in
          (ContentNode_update E h1 id contentNodeData,
           h1 ++ [ResourceUpdate id contentNodeData])
    | Rejected e => throw e
    | Thrown e => throw e
    end.

(** *** copyContentNode *)

(** The [chunk.reduce] that maps each source id to its copy. *)
Definition nodeMap_step (acc : outcome (gmap string node)) (n : node)
  : outcome (gmap string node) :=
  match acc with
  | Resolved nodeMap =>
      match nodeMap !! source_id n with
      | Some _ => Thrown (Error "Not implemented")
      | None => Resolved (<[source_id n := n]> nodeMap)
      end
  | failed => failed
  end.

Definition build_nodeMap (nodes : list node) : outcome (gmap string node) :=
  fold_left nodeMap_step nodes (Resolved ∅).

(** The callback given to [promiseChunk]: [Object.keys(nodeMap)] lists
    the source ids in insertion order. *)
Definition copy_chunk (E : collaborators) (nodes : list node) : M (list jsval) :=
  match build_nodeMap nodes with
  | Resolved nodeMap =>
      let contentnode__in := map source_id nodes in
      dispatch_all E
        [copyAssessmentItems contentnode__in nodeMap;
         copyFiles contentnode__in nodeMap]
  | Rejected e => reject e
  | Thrown e => throw e
  end.

(** The body of [copyContentNode], with the recursive call on a child
    left open as [self]. The destructuring [([childNodes]) => ...] takes
    the nodes of the first child; there is one result per child, so under
    [children.length] the list of results is never empty. *)
Definition copyContentNode_body (E : collaborators)
    (self : child → string → M (list node))
    (id target : string) (position : relative_position) (deep : bool)
    (children : list child) : M (list node) :=
  if deep && negb (Nat.eqb (length children) 0) then
    throw (TypeError "Cannot use deep and specify children")
  else
    then_
      (fun h => (ContentNode_copy E h id target position deep,
                 h ++ [ResourceCopy id target position deep]))
      (fun nodes =>
         then_ (commit (ADD_CONTENTNODES nodes)) (fun _ =>
         then_ (promiseChunk nodes 10 (copy_chunk E)) (fun _ =>
           if negb (Nat.eqb (length children) 0) then
             then_
               (all_in_order
                  (fun c =>
                     match nodes with
                     | first :: _ => self c (Actions.id first)
                     | [] =>
                         throw (TypeError "Cannot read property 'id' of undefined")
                     end)
                  children)
               (fun results =>
                  match results with
                  | childNodes :: _ => resolve (nodes ++ childNodes)
                  | [] => resolve nodes
                  end)
           else resolve nodes))).

(** The recursive call [copyContentNode(context, { id: child.id, target,
    children: child.children })]: [position] and [deep] take their
    defaults. *)
Fixpoint copyContentNode_child (E : collaborators) (c : child) (target : string)
  {struct c} : M (list node) :=
  match c with
  | Child child_id child_children =>
      copyContentNode_body E (copyContentNode_child E)
        child_id target LAST_CHILD false child_children
  end.

Definition copyContentNode (E : collaborators)
    (id target : string) (position : relative_position) (deep : bool)
    (children : list child) : M (list node) :=
  copyContentNode_body E (copyContentNode_child E) id target position deep children.

(** *** copyContentNodes *)
Definition copyContentNodes (E : collaborators)
    (id__in : list string) (target : string) (deep : bool) : M (list jsval) :=
  let position := LAST_CHILD in
  let chunkSize := if deep then 1 else 10 in
  promiseChunk id__in chunkSize (fun idChunk =>
    dispatch_all E
      (map (fun id => copyContentNode_action id target (Some position) deep)
           idChunk)).

(** *** What the statements about the actions speak of *)

(** The parameters [generateContentNodeData] destructures from its
    argument. *)
Definition contentNodeData_fields : list string :=
  ["title"; "description"; "thumbnail_encoding"; "language"; "license";
   "license_description"; "copyright_holder"; "author"; "role_visibility";
   "aggregator"; "provider"; "extra_fields"; "prerequisite"; "complete"].

(** The payload gives [name] a value: the property is there and is neither
    [undefined] nor the sentinel. *)
Definition provided (E : collaborators) (payload : jsobject) (name : string)
  : bool :=
  negb (is_NOVALUE E (param E payload name)).

(** The sub-fields of [extra_fields] that are copied. *)
Definition extra_fields_keys : list string := ["type"; "m"; "n"; "randomize"].

(** [extra_fields.k] for an argument that is neither [null] nor
    [undefined]: a primitive has no such property. *)
Definition sub_field (extra_fields : jsval) (k : string) : jsval :=
  match extra_fields with
  | JObj props => get props k
  | _ => JUndefined
  end.

(** What the update carries under [extra_fields]: the truthy entries of the
    argument among those sub-fields. *)
Definition copied_extra_fields (extra_fields : jsval) : jsobject :=
  match extra_fields with
  | JObj props =>
      filter (fun kv => kv.1 ∈ extra_fields_keys ∧ truthy kv.2 = true) props
  | _ => ∅
  end.

(** The value the update carries for field [name] when the payload gives it
    the value [v]. *)
Definition committed_value (E : collaborators) (name : string) (v : jsval)
  : jsval :=
  if decide (name = "thumbnail_encoding") then JSON_stringify E v
  else if decide (name = "extra_fields") then JObj (copied_extra_fields v)
  else v.

(** The update's entry for [name], read off the payload. *)
Definition expected_field (E : collaborators) (payload : jsobject)
    (name : string) : option jsval :=
  if decide (name ∈ contentNodeData_fields) then
    if provided E payload name
    then Some (committed_value E name (param E payload name))
    else None
  else None.

(** The update [contentNodeData] carries exactly the fields the payload
    provides, whatever their names, and is flagged [changed] as soon as one
    is provided. *)
Definition carries_every_provided_field (E : collaborators)
    (payload contentNodeData : jsobject) : Prop :=
  (∀ k, k ≠ "changed" →
        (is_Some (contentNodeData !! k) ↔ provided E payload k = true)) ∧
  ((∃ k, provided E payload k = true) →
   contentNodeData !! "changed" = Some (JBool true)).

(** The same, for the fields [generateContentNodeData] knows: the update
    carries those of them the payload provides, and no other field. *)
Definition carries_provided_known_fields (E : collaborators)
    (payload contentNodeData : jsobject) : Prop :=
  (∀ k, k ≠ "changed" →
        (is_Some (contentNodeData !! k) ↔
         k ∈ contentNodeData_fields ∧ provided E payload k = true)) ∧
  ((∃ k, k ∈ contentNodeData_fields ∧ provided E payload k = true) ↔
   contentNodeData !! "changed" = Some (JBool true)) ∧
  (contentNodeData !! "changed" = None ∨
   contentNodeData !! "changed" = Some (JBool true)).

(** Modelled from the spec: the [UPDATE_CONTENTNODE] commit handler and
    [ContentNode.update] (mutations.js and the resource layer are not among
    the sources) apply a partial update: the committed fields replace the
    entity's, every other field stays. *)
Definition merge_update (update entity : jsobject) : jsobject := update ∪ entity.

(** [m] only appends events to the history, each of which satisfies [Q]. *)
Definition appends_only {A} (Q : event → Prop) (m : M A) : Prop :=
  ∀ h, ∃ evs, (m h).2 = h ++ evs ∧ Forall Q evs.

(** Each [copyAssessmentItems] / [copyFiles] call of a [Promise.all] group
    names at most [n] content nodes. *)
Definition group_size_at_most (n : nat) (e : event) : Prop :=
  match e with
  | DispatchAll calls =>
      Forall (fun a =>
                match a with
                | copyAssessmentItems ids _ | copyFiles ids _ => length ids ≤ n
                | _ => True
                end) calls
  | _ => True
  end.

(** The events one group of copied nodes gives rise to. *)
Definition copy_chunk_events (nodes : list node) : list event :=
  match build_nodeMap nodes with
  | Resolved nodeMap =>
      [DispatchAll [copyAssessmentItems (map source_id nodes) nodeMap;
                    copyFiles (map source_id nodes) nodeMap]]
  | _ => []
  end.

(** Sample arguments of [updateContentNode]. *)
Definition sample_update : jsobject :=
  {[ "id" := JStr "n1";
     "title" := JStr "Fractions";
     "thumbnail_encoding" := JNull;
     "extra_fields" :=
       JObj {[ "type" := JStr "m_of_n"; "m" := JNum 3; "n" := JNum 0;
               "mastery" := JBool true ]};
     "parent" := JStr "p1" ]}.

Definition sample_update_of_parent : jsobject :=
  {[ "id" := JStr "n1"; "parent" := JStr "p1" ]}.

(** Sample answers of the collaborators, to run the actions on concrete
    inputs: every call succeeds, copying [id] yields one node, and
    [JSON.stringify] is only asked about [null]. *)
Definition sample_collaborators : collaborators := {|
  NOVALUE_symbol := "No value";
  JSON_stringify v := match v with JNull => JStr "null" | _ => v end;
  ContentNode_copy _ id _ _ _ :=
    Resolved [ {| id := id +:+ "-copy"; source_id := id |} ];
  ContentNode_update _ id _ := Resolved id;
  dispatched _ _ := Resolved JUndefined;
|}.

End Actions.

(* ===================================================================== *)
(** ** channelEdit/components/ContentNodeOptions.vue: the tracked methods *)
(* ===================================================================== *)

Module Options.
Import Constants Js Actions.

(** What the methods read from [this]: the [nodeId] prop, the [trashId]
    getter and the fields of [this.node] they use. *)
Record component := {
  nodeId : string;
  trashId : string;
  node_node_id : jsval;
  node_channel_id : jsval;
  node_parent : string;
}.

(** [$trs], the messages of the component. *)
Definition trs : list (string * string) :=
  [("topicDefaultTitle", "{title} topic");
   ("newSubtopic", "New topic");
   ("editTopicDetails", "Edit topic details");
   ("editDetails", "Edit details");
   ("viewDetails", "View details");
   ("move", "Move");
   ("makeACopy", "Make a copy");
   ("copyToClipboard", "Copy to clipboard");
   ("remove", "Remove");
   ("undo", "Undo");
   ("cancel", "Cancel");
   ("creatingCopies", "Copying...");
   ("creatingClipboardCopies", "Copying to clipboard...");
   ("copiedSnackbar", "Copy operation complete");
   ("copiedToClipboardSnackbar", "Copied to clipboard");
   ("removedItems", "Sent to trash")].

(** [this.$tr(key)] for a message without parameters. *)
Definition tr (key : string) : string :=
  match list_find (fun entry => entry.1 = key) trs with
  | Some (_, (_, message)) => message
  | None => key
  end.


(** The functions wrapped by [withChangeTracker]: each receives the
    tracker of the session opened around it as [changeTracker]. *)

Definition removeNode (E : collaborators) (this : component)
    (changeTracker : string) : M jsval :=
  then_ (dispatch E (moveContentNodes_action [nodeId this] (trashId this)))
    (fun _ =>
       dispatch E (showSnackbar {|
         duration := None;
         text := tr "removedItems";
         actionText := tr "undo";
         actionCallback := fun _ => Revert changeTracker [];
       |})).






Definition sample_component : component := {|
  nodeId := "n1";
  trashId := "trash";
  node_node_id := JStr "node-1";
  node_channel_id := JStr "channel-1";
  node_parent := "root";
|}.

End Options.

(* ===================================================================== *)
(** ** shared/data/changes: the change log and the change tracker *)
(* ===================================================================== *)

(** Modelled from the spec: the module that implements [withChangeTracker]
    and [changeTracker.revert()] is imported by ContentNodeOptions.vue and
    is not among the sources. Every definition of this module follows the
    specification's data model (section 3) and the contracts of the Change
    Log and the Change Tracker (sections 4.1 and 4.2). *)

Module Changes.
Import Constants.

(** Modelled from the spec: an entity's place in the tree, "parent/position"
    (the [move(target, position)] of the Remote API). *)
Definition place : Type := string * relative_position.

(** Modelled from the spec: an Entity, a row of the Local Store: its field
    values and, for a tree node, its place. *)
Record entity := {
  fields : gmap string string;
  location : option place;
}.

(** Modelled from the spec: the Local Store, "a persistent key/value table
    set, keyed by (table, key)". *)
Abbreviation local_store := (gmap (string * string) entity).

(** Modelled from the spec: the delta of an update: for each field touched,
    its new value, or [None] when the field is removed. *)
Abbreviation delta := (gmap string (option string)).

(** Modelled from the spec: an update's delta applied to the field
    values, [update(partial)]. *)
Definition patch (changes : delta) (values : gmap string string)
  : gmap string string :=
  merge (fun change old => match change with
                           | Some new => new
                           | None => old
                           end) changes values.

(** Modelled from the spec: the "prior field values" an [UPDATED] record
    keeps for its inverse. *)
Definition prior_values (changes : delta) (values : gmap string string) : delta :=
  map_imap (fun k _ => Some (values !! k)) changes.

(** Modelled from the spec: the [type] of a Change Record together with its
    [payload], "the delta or full snapshot needed to replay or revert the
    mutation". *)
Inductive operation :=
| Created (snapshot : entity)
| Updated (changes prior : delta)
| Deleted (snapshot : entity)
| Moved (to_ from : option place)
| Copied (source_key : string) (snapshot : entity).

Definition type_of (o : operation) : change_type :=
  match o with
  | Created _ => CREATED
  | Updated _ _ => UPDATED
  | Deleted _ => DELETED
  | Moved _ _ => MOVED
  | Copied _ _ => COPIED
  end.

(** Modelled from the spec: [syncState]. *)
Inductive sync_state := PENDING | IN_FLIGHT | SYNCED | FAILED.

#[global] Instance sync_state_eq_dec : EqDecision sync_state.
Proof. solve_decision. Defined.

(** Modelled from the spec: a Change Record. *)
Record change := {
  table : string;
  key : string;
  op : operation;
  source : string;
  sequence : nat;
  syncState : sync_state;
}.

Definition type (c : change) : change_type := type_of (op c).

(** Modelled from the spec: the Local Store and the Change Log, "process-wide
    shared mutable state"; [next_sequence] is the sequence the next append
    assigns. *)
Record state := {
  store : local_store;
  log : list change;
  next_sequence : nat;
}.

Definition initial : state := {| store := ∅; log := []; next_sequence := 0 |}.

(** Modelled from the spec: what an operation makes of an entity ([None]
    for an entity that does not exist). An operation that does not fit the
    entity's state is refused: creating what exists, or touching what does
    not ("Entities exist until a DELETED Change Record is committed"). *)
Definition apply_entity (o : operation) (current : option entity)
  : option (option entity) :=
  match o, current with
  | Created snapshot, None => Some (Some snapshot)
  | Copied _ snapshot, None => Some (Some snapshot)
  | Updated changes _, Some e =>
      Some (Some {| fields := patch changes (fields e); location := location e |})
  | Deleted _, Some _ => Some None
  | Moved to_ _, Some e => Some (Some {| fields := fields e; location := to_ |})
  | _, _ => None
  end.

(** Modelled from the spec: the Local Store write of an operation on
    entity [k], "last-write-wins for materialized rows". *)
Definition write (k : string * string) (o : operation) (s : local_store)
  : option local_store :=
  match apply_entity o (s !! k) with
  | Some (Some e) => Some (<[k := e]> s)
  | Some None => Some (delete k s)
  | None => None
  end.

(** Modelled from the spec: [append(change)] "assigns the next sequence,
    stores atomically with the Local Store write it accompanies (both
    succeed or both fail)". *)
Definition commit_change (src t k : string) (o : operation) (st : state)
  : option state :=
  match write (t, k) o (store st) with
  | Some store' =>
      Some {| store := store';
              log := log st ++ [ {| table := t; key := k; op := o; source := src;
                                    sequence := next_sequence st;
                                    syncState := PENDING |} ];
              next_sequence := S (next_sequence st) |}
  | None => None
  end.

(** Modelled from the spec: the entity-mutating operations, "creates,
    updates, deletes, moves, copies". *)
Inductive mutation :=
| Create (t k : string) (e : entity)
| Update (t k : string) (changes : delta)
| Delete (t k : string)
| Move (t k : string) (target : place)
| Copy (t k copy_key : string) (target : place).

(** Modelled from the spec: the Change Record a mutation writes, with the
    payload read off the store: the prior values of an update, the snapshot
    before a delete, the place before a move, the row of a copy. *)
Definition operation_of (m : mutation) (s : local_store)
  : option (string * string * operation) :=
  match m with
  | Create t k e => Some (t, k, Created e)
  | Update t k changes =>
      e ← s !! (t, k);
      Some (t, k, Updated changes (prior_values changes (fields e)))
  | Delete t k => e ← s !! (t, k); Some (t, k, Deleted e)
  | Move t k target =>
      e ← s !! (t, k); Some (t, k, Moved (Some target) (location e))
  | Copy t k copy_key target =>
      e ← s !! (t, k);
      Some (t, copy_key,
            Copied k {| fields := fields e; location := Some target |})
  end.

(** Modelled from the spec: a mutation made under source [src]; [None] is
    a [LocalWriteError], "no partial commit": nothing is written and
    nothing is logged. *)
Definition mutate (src : string) (m : mutation) (st : state) : option state :=
  match operation_of m (store st) with
  | Some (t, k, o) => commit_change src t k o st
  | None => None
  end.

(** Modelled from the spec: [markSynced(id)] / [markFailed(id, reason)]
    "transition syncState"; a record's id is its sequence. *)
Definition set_syncState (id : nat) (s : sync_state) (c : change) : change :=
  if sequence c =? id
  then {| table := table c; key := key c; op := op c; source := source c;
          sequence := sequence c; syncState := s |}
  else c.

Definition mark (id : nat) (s : sync_state) (st : state) : state :=
  {| store := store st;
     log := map (set_syncState id s) (log st);
     next_sequence := next_sequence st |}.

Definition markSynced (id : nat) : state → state := mark id SYNCED.
Definition markFailed (id : nat) (reason : string) : state → state := mark id FAILED.

(** Modelled from the spec: "a distinguished IGNORED_SOURCE tag (and its
    REVERT variant) marks changes that must not themselves be tracked for
    sync or re-reverted". *)
Definition is_ignored (src : string) : bool :=
  bool_decide (src = IGNORED_SOURCE ∨ src = REVERT_SOURCE).

(** Modelled from the spec: the drain loop "selects PENDING records in
    ascending sequence", among the records tracked for sync. *)
Definition pending_for_sync (l : list change) : list change :=
  filter (fun c => is_ignored (source c) = false ∧ syncState c = PENDING) l.

(** Modelled from the spec: [entriesSince(sequence)], the "Change Records
    with sequence ≥ given watermark", in log order. *)
Definition entriesSince (w : nat) (l : list change) : list change :=
  filter (fun c => w ≤ sequence c) l.

(** Modelled from the spec: a Change Tracker Session "holds the starting
    sequence watermark". [begin] takes the watermark from the log's sequence
    counter: the entries with sequence ≥ watermark are then the entries
    appended since the session began, as "since the watermark" and "must not
    revert entries appended before its own watermark" require. *)
Record session := { watermark : nat }.

Definition begin (st : state) : session := {| watermark := next_sequence st |}.

(** Modelled from the spec: the set [revert] works on, "every entry with
    sequence ≥ watermark and tagged with a non-ignored source", computed at
    revert time. *)
Definition revertible (w : nat) (l : list change) : list change :=
  filter (fun c => is_ignored (source c) = false) (entriesSince w l).

(** Modelled from the spec: the inverse operations of section 4.2. *)
Definition inverse (o : operation) : operation :=
  match o with
  | Created snapshot => Deleted snapshot
  | Deleted snapshot => Created snapshot
  | Updated changes prior => Updated prior changes
  | Moved to_ from => Moved from to_
  | Copied _ snapshot => Deleted snapshot
  end.

(** Modelled from the spec: one record visited by [revert]: its inverse
    is committed under the [REVERT] source; when the store refuses it
    ([RevertConflict]) the revert proceeds, "best-effort". Each visit is
    noted with its outcome. *)
Definition revert_one (acc : state * list (change * bool)) (c : change)
  : state * list (change * bool) :=
  match commit_change REVERT_SOURCE (table c) (key c) (inverse (op c)) acc.1 with
  | Some st' => (st', acc.2 ++ [(c, true)])
  | None => (acc.1, acc.2 ++ [(c, false)])
  end.

(** Modelled from the spec: [Session.revert()], over the selected records
    "in reverse chronological order". *)
Definition revert (s : session) (st : state) : state * list (change * bool) :=
  fold_left revert_one (rev (revertible (watermark s) (log st))) (st, []).


(** The record [revert] appends for [c] when its inverse is committed as
    the record of sequence [n]. *)
Definition inverse_record (n : nat) (c : change) : change :=
  {| table := table c; key := key c; op := inverse (op c);
     source := REVERT_SOURCE; sequence := n; syncState := PENDING |}.

(** The records a revert appends, read off its visits: one inverse record
    per visit that was not refused, with consecutive sequences from [n]. *)
Fixpoint emitted (n : nat) (visits : list (change * bool)) : list change :=
  match visits with
  | [] => []
  | (c, true) :: visits' => inverse_record n c :: emitted (S n) visits'
  | (_, false) :: visits' => emitted n visits'
  end.

(** Modelled from the spec: everything that acts on the store and the
    log, "routing all mutation through the Change Tracker API". *)
Inductive command :=
| Mutate (src : string) (m : mutation)
| RevertSession (s : session)
| MarkSynced (id : nat)
| MarkFailed (id : nat) (reason : string).

(** A rejected mutation leaves the state as it was. *)
Definition exec (st : state) (c : command) : state :=
  match c with
  | Mutate src m => default st (mutate src m st)
  | RevertSession s => (revert s st).1
  | MarkSynced id => markSynced id st
  | MarkFailed id reason => markFailed id reason st
  end.

Definition run (cs : list command) (st : state) : state := fold_left exec cs st.

(** The mutations of a unit of work, each under its source. *)
Definition tracked (ms : list (string * mutation)) : list command :=
  map (fun sm => Mutate sm.1 sm.2) ms.

(** Modelled from the spec: the round-trip law's replay, "Change Records for
    a given entity key, applied in ascending sequence order" from the empty
    state. *)
Definition entity_records (k : string * string) (l : list change) : list change :=
  filter (fun c => (table c, key c) = k) l.

Definition replay_step (current : option entity) (c : change) : option entity :=
  default current (apply_entity (op c) current).

Definition replay (k : string * string) (l : list change) : option entity :=
  fold_left replay_step (entity_records k l) None.

(** The Local Store row of every entity is what its records replay to. *)
Definition mirrors (st : state) : Prop :=
  ∀ k, replay k (log st) = store st !! k.



(** The invariant of the log: sequences ascend strictly and stay below the
    counter. *)
Definition log_ordered (st : state) : Prop :=
  StronglySorted (fun a b => sequence a < sequence b) (log st) ∧
  Forall (fun c => sequence c < next_sequence st) (log st).

(** Sample data. *)
Definition topic (title : string) : entity :=
  {| fields := {[ "title" := title ]}; location := Some ("root", LAST_CHILD) |}.

Definition sample_history : list command :=
  [Mutate "user" (Create "contentnode" "T0" (topic "Algebra"));
   Mutate IGNORED_SOURCE (Create "contentnode" "S0" (topic "Synced from server"))].

Definition sample_work : list (string * mutation) :=
  [("user", Create "contentnode" "T1" (topic "Geometry"));
   ("user", Update "contentnode" "T0" {[ "title" := Some "Algebra I" ]});
   ("user", Move "contentnode" "T1" ("T0", FIRST_CHILD));
   ("user", Copy "contentnode" "T1" "T2" ("root", LAST_CHILD));
   ("user", Delete "contentnode" "T0")].

End Changes.

(* ===================================================================== *)
(** ** actions.js: loading, creating, tagging, deleting and moving nodes *)
(* ===================================================================== *)

Module NodeActions.
Import Constants Js.

(** A promise of the resource layer once it has settled. *)
Inductive settled (A : Type) :=
| Fulfilled (a : A)
| Failed (e : js_error).
Arguments Fulfilled {A} a.
Arguments Failed {A} e.

(** The calls an action makes, in the order it makes them:
    [ContentNode.method(...args)], [context.commit(type, payload)] and
    [context.dispatch(type, payload, { root: true })]. *)
Inductive call :=
| Resource (method : string) (args : list jsval)
| Commit (type : string) (payload : jsval)
| Dispatch (type : string) (payload : jsval).

Definition trace := list call.

(** What the actions take from outside: the [ContentNode] resource, whose
    methods return promises (what a call settles to may depend on the calls
    made before it), [findLicense] of [shared/utils/helpers] and
    [ContentKindsNames.TOPIC] of [shared/leUtils/ContentKinds]. *)
Record backend := {
  ContentNode : trace → string → list jsval → settled jsval;
  findLicense : jsval → jsval → jsval;
  TOPIC : string;
}.

(** A computation of an action over the trace of its calls. *)
Definition task (A : Type) := trace → outcome A * trace.

Definition resolved {A} (a : A) : task A := fun h => (Resolved a, h).
Definition thrown {A} (e : js_error) : task A := fun h => (Thrown e, h).

(** [promise.then(f)] *)
Definition chain {A B} (m : task A) (f : A → task B) : task B := fun h =>
  match m h with
  | (Resolved a, h') =>
      match f a h' with
      | (Thrown e, h'') => (Rejected e, h'')
      | r => r
      end
  | (Rejected e, h') => (Rejected e, h')
  | (Thrown e, h') => (Thrown e, h')
  end.

(** [promise.catch(f)] *)
Definition catch {A} (m : task A) (f : js_error → task A) : task A := fun h =>
  match m h with
  | (Rejected e, h') =>
      match f e h' with
      | (Thrown e', h'') => (Rejected e', h'')
      | r => r
      end
  | r => r
  end.

(** [ContentNode.method(...args)] *)
Definition request (B : backend) (method : string) (args : list jsval)
  : task jsval := fun h =>
  (match ContentNode B h method args with
   | Fulfilled v => Resolved v
   | Failed e => Rejected e
   end,
   h ++ [Resource method args]).

Definition commit (type : string) (payload : jsval) : task unit := fun h =>
  (Resolved tt, h ++ [Commit type payload]).

Definition dispatch (type : string) (payload : jsval) : task unit := fun h =>
  (Resolved tt, h ++ [Dispatch type payload]).

(** [loadContentNodes(context, params = {})] *)
Definition loadContentNodes (B : backend) (params : jsval) : task jsval :=
  let params := match params with JUndefined => JObj ∅ | _ => params end in
  chain (request B "where" [params]) (fun contentNodes =>
  chain (commit "ADD_CONTENTNODES" contentNodes) (fun _ =>
  resolved contentNodes)).

Definition headContentNode (B : backend) (id : jsval) : task jsval :=
  request B "headModel" [id].

Definition loadContentNode (B : backend) (id : jsval) : task jsval :=
  catch
    (chain (request B "get" [id]) (fun contentNode =>
     chain (commit "ADD_CONTENTNODE" contentNode) (fun _ =>
     resolved contentNode)))
    (fun _ => resolved JUndefined).

(** [loadChildren(context, { parent })] *)
Definition loadChildren (B : backend) (arg : jsobject) : task jsval :=
  loadContentNodes B (JObj {[ "parent" := get arg "parent" ]}).

(** [loadAncestors(context, { id })] *)
Definition loadAncestors (B : backend) (arg : jsobject) : task jsval :=
  chain (request B "getAncestors" [get arg "id"]) (fun contentNodes =>
  chain (commit "ADD_CONTENTNODES" contentNodes) (fun _ =>
  resolved contentNodes)).



(** [removePreviousStepFromNode(context, { targetId, previousStepId })]:
    the commit comes first, the resource call second. *)
Definition removePreviousStepFromNode (B : backend) (targetId previousStepId : jsval)
  : task jsval := fun h =>
  request B "removePrerequisite" [targetId; previousStepId]
    (h ++ [Commit "REMOVE_PREVIOUS_STEP"
             (JObj {[ "target_node" := targetId; "prerequisite" := previousStepId ]})]).

(** A function body that calls [m] and has no [return]: the promise is
    dropped and the caller gets [undefined]; only an exception thrown by
    the call itself reaches the caller. *)
Definition dropped {A} (m : task A) : task jsval := fun h =>
  match m h with
  | (Thrown e, h') => (Thrown e, h')
  | (_, h') => (Resolved JUndefined, h')
  end.

Definition removeNextStepFromNode (B : backend) (targetId nextStepId : jsval)
  : task jsval :=
  dropped (removePreviousStepFromNode B nextStepId targetId).

Definition addPreviousStepToNode (B : backend) (targetId previousStepId : jsval)
  : task jsval := fun h =>
  request B "addPrerequisite" [targetId; previousStepId]
    (h ++ [Commit "ADD_PREVIOUS_STEP"
             (JObj {[ "target_node" := targetId; "prerequisite" := previousStepId ]})]).

Definition addNextStepToNode (B : backend) (targetId nextStepId : jsval)
  : task jsval :=
  dropped (addPreviousStepToNode B nextStepId targetId).

(** *** createContentNode *)

(** What [createContentNode] reads from the store: [rootState.session]
    ([preferences], [currentLanguage]) and the [content_defaults] of the
    current channel. *)
Record context := {
  session_preferences : jsval;
  session_currentLanguage : jsval;
  content_defaults : jsobject;
}.

(** [kind = ContentKindsNames.TOPIC] in the parameter list. *)
Definition kind_of (B : backend) (arg : jsobject) : jsval :=
  match arg !! "kind" with
  | None | Some JUndefined => JStr (TOPIC B)
  | Some kind => kind
  end.

(** [kind === ContentKindsNames.TOPIC] *)
Definition is_topic (B : backend) (kind : jsval) : bool :=
  match kind with
  | JStr s => String.eqb s (TOPIC B)
  | _ => false
  end.

(** [session.preferences ? session.preferences.language
                         : session.currentLanguage] *)
Definition session_language (c : context) : jsval :=
  if truthy (session_preferences c) then
    match session_preferences c with
    | JObj preferences => get preferences "language"
    | _ => JUndefined
    end
  else session_currentLanguage c.

(** The defaults spread into the new node: none for a topic; for another
    kind the channel's, with [license] replaced by the id of the license
    [findLicense] finds. *)
Definition contentDefaults_for (B : backend) (c : context) (kind : jsval)
  : outcome jsobject :=
  if is_topic B kind then Resolved ∅
  else
    match get_prop (findLicense B (get (content_defaults c) "license")
                      (JObj {[ "id" := JNull ]})) "id" with
    | Resolved license => Resolved (<["license" := license]> (content_defaults c))
    | Rejected e => Rejected e
    | Thrown e => Thrown e
    end.

(** The object literal [contentNodeData]: later entries override earlier
    ones, so the payload wins over the defaults, and the defaults over the
    fixed fields. *)
Definition contentNodeData_of (c : context) (kind parent : jsval)
    (contentDefaults payload : jsobject) : jsobject :=
  payload ∪ (contentDefaults ∪
    {[ "title" := JStr "";
       "description" := JStr "";
       "kind" := kind;
       "files" := JArr [];
       "tags" := JObj ∅;
       "extra_fields" := JObj ∅;
       "isNew" := JBool true;
       "complete" := JBool false;
       "changed" := JBool true;
       "language" := session_language c;
       "parent" := parent ]}).

(** [contentNodeData.files.forEach(file => context.dispatch(
      'file/updateFile', { id: file, contentnode: id }, { root: true }))] *)
Definition update_files (files id : jsval) : task unit :=
  match files with
  | JArr items => fun h =>
      (Resolved tt,
       h ++ map (fun file =>
                   Dispatch "file/updateFile"
                     (JObj {[ "id" := file; "contentnode" := id ]})) items)
  | _ => thrown (TypeError "contentNodeData.files.forEach is not a function")
  end.

(** [createContentNode(context, { parent, kind = TOPIC, ...payload })] *)
Definition createContentNode (B : backend) (c : context) (arg : jsobject)
  : task jsval :=
  let parent := get arg "parent" in
  let kind := kind_of B arg in
  let payload := delete "parent" (delete "kind" arg) in
  match contentDefaults_for B c kind with
  | Resolved contentDefaults =>
      let contentNodeData := contentNodeData_of c kind parent contentDefaults payload in
      chain (request B "put" [JObj contentNodeData]) (fun id =>
      chain (update_files (get contentNodeData "files") id) (fun _ =>
      chain (commit "ADD_CONTENTNODE" (JObj (contentNodeData ∪ {[ "id" := id ]})))
        (fun _ => resolved id)))
  | Rejected e => thrown e
  | Thrown e => thrown e
  end.

(** *** Promise.all over calls that are under way *)

(** The calls [items.map(item => ContentNode.method(...args(item)))] are
    started one after the other; each answer is fixed when its call is
    made. *)
Fixpoint start_all {X} (B : backend) (method : string) (args : X → list jsval)
    (items : list X) (h : trace) : list (settled jsval) * trace :=
  match items with
  | [] => ([], h)
  | x :: rest =>
      let reply := ContentNode B h method (args x) in
      let (replies, h') := start_all B method args rest (h ++ [Resource method (args x)]) in
      (reply :: replies, h')
  end.

(** The [then] callbacks of the started calls run as the calls settle, in
    the order [schedule] gives (positions in the list of calls); a call
    that fails runs none. *)
Definition continuations {X} (items : list X) (replies : list (settled jsval))
    (schedule : list nat) (callback : X → jsval → list call) : list call :=
  flat_map (fun j =>
              match items !! j, replies !! j with
              | Some x, Some (Fulfilled v) => callback x v
              | _, _ => []
              end) schedule.

(** The first failure, in the order the calls settle. *)
Definition first_failure {A} (replies : list (settled A)) (schedule : list nat)
  : option js_error :=
  head (omap (fun j => match replies !! j with
                       | Some (Failed e) => Some e
                       | _ => None
                       end) schedule).

Fixpoint values {A} (replies : list (settled A)) : option (list A) :=
  match replies with
  | [] => Some []
  | Fulfilled a :: rest => cons a <$> values rest
  | Failed _ :: _ => None
  end.

Definition any_failure {A} (replies : list (settled A)) : option js_error :=
  head (omap (fun r => match r with Failed e => Some e | _ => None end) replies).

(** [Promise.all(promises)]: the values in the order of the promises when
    all are fulfilled, else the failure that comes first in time. *)
Definition Promise_all {A} (replies : list (settled A)) (schedule : list nat)
  : outcome (list A) :=
  match values replies with
  | Some vs => Resolved vs
  | None =>
      match first_failure replies schedule, any_failure replies with
      | Some e, _ | None, Some e => Rejected e
      | None, None => Resolved []
      end
  end.

(** The items whose call was fulfilled, with the value each got. *)
Definition fulfilled_items {X} (items : list X) (replies : list (settled jsval))
  : list (X * jsval) :=
  omap (fun xr => match xr.2 with
                  | Fulfilled v => Some (xr.1, v)
                  | Failed _ => None
                  end) (zip items replies).

Definition is_fulfilled {A} (r : settled A) : Prop :=
  match r with Fulfilled _ => True | Failed _ => False end.

(** *** addTags and removeTags *)






(** *** deleteContentNode, deleteContentNodes, moveContentNodes *)

Definition removed (id : jsval) : call :=
  Commit "REMOVE_CONTENTNODE" (JObj {[ "id" := id ]}).

Definition deleteContentNode (B : backend) (contentNodeId : jsval) : task jsval :=
  chain (request B "delete" [contentNodeId]) (fun _ => fun h =>
    (Resolved JUndefined, h ++ [removed contentNodeId])).

(** [Promise.all(contentNodeIds.map(id => deleteContentNode(context, id)))]:
    all deletes are started, then each commit runs when its delete is
    done. The trace is the one reached when every call has settled. *)
Definition deleteContentNodes (B : backend) (contentNodeIds : list jsval)
    (schedule : list nat) : task (list jsval) := fun h =>
  let (replies, h') := start_all B "delete" (fun id => [id]) contentNodeIds h in
  (Promise_all
     (map (fun r => match r with
                    | Fulfilled _ => Fulfilled JUndefined
                    | Failed e => Failed e
                    end) replies) schedule,
   h' ++ continuations contentNodeIds replies schedule (fun id _ => [removed id])).

(** [moveContentNodes(context, { id__in, parent: target })] *)
Definition moveContentNodes (B : backend) (id__in : list jsval) (target : jsval)
    (schedule : list nat) : task (list jsval) := fun h =>
  let args id := [id; target; JStr (RELATIVE_TREE_POSITIONS LAST_CHILD)] in
  let (replies, h') := start_all B "move" args id__in h in
  (Promise_all
     (map (fun ir => match ir.2 with
                     | Fulfilled _ => Fulfilled ir.1
                     | Failed e => Failed e
                     end) (zip id__in replies)) schedule,
   h' ++ continuations id__in replies schedule
           (fun _ node => [Commit "UPDATE_CONTENTNODE" node])).

(** *** checkSavingProgress *)

(** A row of the table [CHANGES_TABLE] of the local database. *)
Record change_row := {
  row_table : string;
  row_key : string;
  row_fields : jsobject;
}.

(** [db[CHANGES_TABLE].where({ '[table+key]': [table, key] }).first()]:
    the first row of that table and key, or [undefined]. *)
Definition first_change (rows : list change_row) (table key : string) : jsval :=
  match list_find (fun r => row_table r = table ∧ row_key r = key) rows with
  | Some (_, r) =>
      JObj (<["table" := JStr (row_table r)]>
              (<["key" := JStr (row_key r)]> (row_fields r)))
  | None => JUndefined
  end.

(** [checkSavingProgress(context, { contentNodeIds = [], fileIds = [],
    assessmentIds = [] })]: [results.some(Boolean)] over the flattened
    queries. *)
Definition checkSavingProgress (rows : list change_row)
    (contentNodeIds fileIds assessmentIds : list string) : bool :=
  let promises :=
    [map (first_change rows TABLE_CONTENTNODE) contentNodeIds;
     map (first_change rows TABLE_FILE) fileIds;
     map (first_change rows TABLE_ASSESSMENTITEM) assessmentIds] in
  existsb truthy (concat promises).

(** *** Sample data *)

Definition sample_backend : backend := {|
  ContentNode h method args :=
    match args with
    | JStr "gone" :: _ => Failed (Failure (JStr "not found"))
    | id :: _ =>
        if String.eqb method "put" then Fulfilled (JStr "new-id")
        else Fulfilled (JObj {[ "id" := id ]})
    | [] => Fulfilled JUndefined
    end;
  findLicense license default := default;
  TOPIC := "topic";
|}.

Definition sample_context : context := {|
  session_preferences := JUndefined;
  session_currentLanguage := JStr "en";
  content_defaults := {[ "license" := JStr "CC BY"; "author" := JStr "Ada" ]};
|}.

End NodeActions.

(* ===================================================================== *)
(** ** channelEdit/components/ContentNodeOptions.vue: the template *)
(* ===================================================================== *)

Module Menu.

(** What the template reads: the computed [isTopic], the getter [canEdit]
    and the props [hideEditLink] and [hideDetailsLink]. *)
Record view := {
  isTopic : bool;
  canEdit : bool;
  hideEditLink : bool;
  hideDetailsLink : bool;
}.

(** What a tile does when chosen: a [@click] handler or a [:to] link. *)
Inductive target :=
| click_newTopicNode
| to_editLink
| to_viewLink
| click_setMoveNodes
| click_duplicateNode
| click_copyToClipboard
| click_removeNode.

#[global] Instance target_eq_dec : EqDecision target.
Proof. solve_decision. Defined.

(** A [VListTile]: the key of its title in [$trs] and its target. *)
Record tile := { title : string; on_choice : target }.

(** [v-if]: the element is rendered when the condition holds. *)
Definition v_if (condition : bool) (t : tile) : list tile :=
  if condition then [t] else [].

(** The [VList] of the template, top to bottom. *)
Definition template (v : view) : list tile :=
  v_if (isTopic v && canEdit v)
    {| title := "newSubtopic"; on_choice := click_newTopicNode |} ++
  v_if (canEdit v && negb (hideEditLink v))
    {| title := if isTopic v then "editTopicDetails" else "editDetails";
       on_choice := to_editLink |} ++
  v_if (negb (hideDetailsLink v))
    {| title := "viewDetails"; on_choice := to_viewLink |} ++
  v_if (canEdit v) {| title := "move"; on_choice := click_setMoveNodes |} ++
  v_if (canEdit v) {| title := "makeACopy"; on_choice := click_duplicateNode |} ++
  [ {| title := "copyToClipboard"; on_choice := click_copyToClipboard |} ] ++
  v_if (canEdit v) {| title := "remove"; on_choice := click_removeNode |}.

End Menu.

(* ===================================================================== *)
(** ** shared/vuex/draggablePlugin/index.js *)
(* ===================================================================== *)

Module DraggablePlugin.
Import Js.

(** An action as the store hands it to a subscriber. *)
Record action := { type : string; payload : jsval }.

(** A [keydown] event: [code] when the event has that property, and
    [which]. *)
Record keyboard_event := { code : option jsval; which : jsval }.

(** The store and the window, as far as the plugin touches them: the
    actions dispatched so far, oldest first, and whether
    [cancelEventListener] is among the window's [keydown] listeners
    (adding a listener that is already there changes nothing). *)
Record world := {
  dispatched : list action;
  listening : bool;
}.

Definition set_listening (b : bool) (w : world) : world :=
  {| dispatched := dispatched w; listening := b |}.

(** The callback given to [store.subscribeAction], with [store.dispatch]
    left open as [dispatch]. *)
Definition subscriber (dispatch : action → world → option world)
    (a : action) (w : world) : option world :=
  if String.eqb (type a) "draggable/handles/setActiveDraggable" then
    w' ← dispatch {| type := "draggable/setActiveDraggable"; payload := payload a |} w;
    Some (set_listening true w')
  else if String.eqb (type a) "draggable/handles/resetActiveDraggable" then
    w' ← dispatch {| type := "draggable/resetActiveDraggable"; payload := payload a |} w;
    Some (set_listening false w')
  else Some w.

(** [store.dispatch(type, payload)]: the action is handed to the
    subscriber before the handlers of the module run. The handlers are
    those of [./module], which is not part of this file; the action is
    recorded as dispatched. A dispatch inside the subscriber re-enters the
    store, which [fuel] bounds. *)
Fixpoint dispatch (fuel : nat) (a : action) (w : world) : option world :=
  match fuel with
  | 0 => None
  | S fuel' =>
      subscriber (dispatch fuel') a
        {| dispatched := dispatched w ++ [a]; listening := listening w |}
  end.

(** [e.code !== 'Escape'] and [e.which !== 27] on the values read. *)
Definition is_Escape (v : jsval) : bool :=
  match v with JStr s => String.eqb s "Escape" | _ => false end.

Definition is_27 (v : jsval) : bool :=
  match v with JNum n => (n =? 27)%Z | _ => false end.

Definition cancelEventListener (fuel : nat) (e : keyboard_event) (w : world)
  : option world :=
  let go_on :=
    match code e with
    | Some c => is_Escape c
    | None => is_27 (which e)
    end in
  if go_on then
    dispatch fuel {| type := "draggable/handles/resetActiveDraggable";
                     payload := JUndefined |} w
  else Some w.

(** What happens to the plugin from outside: some code dispatches an
    action, or the window gets a [keydown]. *)
Inductive input :=
| Dispatch (a : action)
| Keydown (e : keyboard_event).

Definition step (fuel : nat) (i : input) (w : world) : option world :=
  match i with
  | Dispatch a => dispatch fuel a w
  | Keydown e => if listening w then cancelEventListener fuel e w else Some w
  end.

Fixpoint run (fuel : nat) (inputs : list input) (w : world) : option world :=
  match inputs with
  | [] => Some w
  | i :: rest => w' ← step fuel i w; run fuel rest w'
  end.

(** The plugin just installed: nothing dispatched, no listener. *)
Definition installed : world := {| dispatched := []; listening := false |}.

(** Whether a handle is being dragged, read off the actions dispatched:
    the last of the two handle actions decides. *)
Definition dragging (actions : list action) : bool :=
  fold_left
    (fun d a =>
       if String.eqb (type a) "draggable/handles/setActiveDraggable" then true
       else if String.eqb (type a) "draggable/handles/resetActiveDraggable" then false
       else d)
    actions false.

(** Every handle action is passed on at once, with its payload, to the
    action of the same name of the [draggable] module. *)
Fixpoint passed_on (actions : list action) : Prop :=
  match actions with
  | [] => True
  | a :: rest =>
      (if String.eqb (type a) "draggable/handles/setActiveDraggable" then
         head rest = Some {| type := "draggable/setActiveDraggable";
                             payload := payload a |}
       else if String.eqb (type a) "draggable/handles/resetActiveDraggable" then
         head rest = Some {| type := "draggable/resetActiveDraggable";
                             payload := payload a |}
       else True) ∧ passed_on rest
  end.

End DraggablePlugin.

(* ===================================================================== *)
(** ** shared/mixins/draggable: the container mixin *)
(* ===================================================================== *)

Module DraggableMixin.

(** What a handler does, in the order it does it. *)
Inductive effect :=
| preventDefault
| cancel_throttledUpdateHoverDraggable
| cancel_debouncedResetHoverDraggable
| flush_throttledUpdateHoverDraggable
| emit (event : string)
| set_dropEffect (value : string)
| setHoverDraggable
| throttledUpdateHoverDraggable
| debouncedResetHoverDraggable.

#[global] Instance effect_eq_dec : EqDecision effect.
Proof. solve_decision. Defined.

(** The component: its data [draggableDragEntered] and what it has done
    so far. *)
Record component := {
  draggableDragEntered : bool;
  effects : list effect;
}.

(** What a handler reads and does not change: the computed
    [isInActiveDraggableUniverse], the prop [dropEffect], and
    [e.dataTransfer.dropEffect] of the event it is given. *)
Record reading := {
  isInActiveDraggableUniverse : bool;
  dropEffect : string;
  e_dropEffect : string;
}.

Definition does (new : list effect) (c : component) : component :=
  {| draggableDragEntered := draggableDragEntered c;
     effects := effects c ++ new |}.

Definition set_draggableDragEntered (b : bool) (c : component) : component :=
  {| draggableDragEntered := b; effects := effects c |}.

(** [activeDropEffect()] and [isDropAllowed()] *)
Definition activeDropEffect (r : reading) : string :=
  if isInActiveDraggableUniverse r then dropEffect r else "none".

Definition isDropAllowed (r : reading) : bool :=
  negb (String.eqb (activeDropEffect r) "none").

(** [emitDraggableDragLeave(e)] *)
Definition emitDraggableDragLeave (c : component) : component :=
  if draggableDragEntered c then
    set_draggableDragEntered false
      (does [cancel_debouncedResetHoverDraggable;
             cancel_throttledUpdateHoverDraggable;
             emit "draggableDragLeave";
             debouncedResetHoverDraggable] c)
  else c.

(** [emitDraggableDragEnter(e)] and [emitDraggableDragOver(e)] call each
    other; [fuel] bounds the depth of the calls. *)
Fixpoint emitDraggableDragEnter (fuel : nat) (r : reading) (c : component)
  : option component :=
  match fuel with
  | 0 => None
  | S fuel' =>
      let c := does [preventDefault] c in
      if negb (draggableDragEntered c) && isInActiveDraggableUniverse r then
        let c := does [cancel_throttledUpdateHoverDraggable;
                       cancel_debouncedResetHoverDraggable] c in
        let c := set_draggableDragEntered true c in
        let c := does [emit "draggableDragEnter"] c in
        let c := if negb (String.eqb (e_dropEffect r) (activeDropEffect r))
                 then does [set_dropEffect (activeDropEffect r)] c else c in
        let c := does [setHoverDraggable] c in
        c ← emitDraggableDragOver fuel' r c;
        Some (does [flush_throttledUpdateHoverDraggable] c)
      else if negb (isInActiveDraggableUniverse r) then
        Some (does [set_dropEffect "none"] (emitDraggableDragLeave c))
      else Some c
  end
with emitDraggableDragOver (fuel : nat) (r : reading) (c : component)
  : option component :=
  match fuel with
  | 0 => None
  | S fuel' =>
      if negb (draggableDragEntered c) then emitDraggableDragEnter fuel' r c
      else
        Some (does [cancel_debouncedResetHoverDraggable;
                    emit "draggableDragOver";
                    throttledUpdateHoverDraggable] c)
  end.

(** [emitDraggableDrop(e)] *)
Definition emitDraggableDrop (fuel : nat) (r : reading) (c : component)
  : option component :=
  if isDropAllowed r then
    c ← emitDraggableDragOver fuel r c;
    Some (does [emit "draggableDrop"] c)
  else Some c.

(** The drag events the component is given. *)
Inductive handler := dragenter | dragover | dragleave | drop.

Definition handle (fuel : nat) (hr : handler * reading) (c : component)
  : option component :=
  match hr.1 with
  | dragenter => emitDraggableDragEnter fuel hr.2 c
  | dragover => emitDraggableDragOver fuel hr.2 c
  | dragleave => Some (emitDraggableDragLeave c)
  | drop => emitDraggableDrop fuel hr.2 c
  end.

Fixpoint handle_all (fuel : nat) (events : list (handler * reading)) (c : component)
  : option component :=
  match events with
  | [] => Some c
  | hr :: rest => c' ← handle fuel hr c; handle_all fuel rest c'
  end.

(** [data()]: nothing entered, nothing done. *)
Definition created : component := {| draggableDragEntered := false; effects := [] |}.

(** The events emitted to the parent, oldest first. *)
Definition emitted (c : component) : list string :=
  omap (fun f => match f with emit event => Some event | _ => None end) (effects c).

(** Reading a list of emitted events from a component that is entered or
    not, and has just emitted an over or not: an enter must come when not
    entered, an over, a drop or a leave when entered, and a drop right
    after an over. The result says whether the component is entered at
    the end, and whether an over came last. *)
Fixpoint follows (entered over : bool) (events : list string) : option (bool * bool) :=
  match events with
  | [] => Some (entered, over)
  | event :: rest =>
      if String.eqb event "draggableDragEnter" then
        if entered then None else follows true false rest
      else if String.eqb event "draggableDragOver" then
        if entered then follows true true rest else None
      else if String.eqb event "draggableDrop" then
        if entered && over then follows true false rest else None
      else if String.eqb event "draggableDragLeave" then
        if entered then follows false false rest else None
      else None
  end.

(** The events a component has emitted read well from the start, and end
    with the component entered or not as its data says. *)
Definition well_formed (c : component) (over : bool) : Prop :=
  follows false false (emitted c) = Some (draggableDragEntered c, over).

End DraggableMixin.

(* ===================================================================== *)
(** * Properties *)
(* ===================================================================== *)

Import Constants Js Actions Options.

(** ** Chunking *)


Lemma chunk_fuel_bounded {A} (size fuel : nat) (l : list A) :
  0 < size → Forall (fun g => 0 < length g ≤ size) (chunk_fuel fuel size l).
Proof.
  intros Hsize. revert l. induction fuel as [|fuel IH]; intros l; [constructor |].
  destruct l as [|x l]; [constructor |]. cbn [chunk_fuel].
  constructor; [| apply IH].
  rewrite length_take. simpl. lia.
Qed.


Lemma chunk_bounded {A} (size : nat) (l : list A) :
  Forall (fun g => 0 < length g ≤ size) (chunk size l).
Proof.
  destruct size; [constructor |]. apply chunk_fuel_bounded. lia.
Qed.

Example chunk_of_twelve :
  chunk 10 (seq 0 12) = [seq 0 10; [10; 11]] ∧ chunk 1 [7; 8; 9] = [[7]; [8]; [9]].
Proof. split; reflexivity. Qed.

(** ** Promises and the history *)

Lemma appends_resolve {A} Q (a : A) : appends_only Q (resolve a).
Proof. intros h. exists []. by rewrite app_nil_r. Qed.

Lemma appends_reject {A} Q e : appends_only Q (@reject A e).
Proof. intros h. exists []. by rewrite app_nil_r. Qed.

Lemma appends_throw {A} Q e : appends_only Q (@throw A e).
Proof. intros h. exists []. by rewrite app_nil_r. Qed.

Lemma appends_commit Q m : Q (Commit m) → appends_only Q (commit m).
Proof. intros HQ h. exists [Commit m]. split; [done | by constructor]. Qed.

Lemma appends_dispatch_all E Q calls :
  Q (DispatchAll calls) → appends_only Q (dispatch_all E calls).
Proof. intros HQ h. exists [DispatchAll calls]. split; [done | by constructor]. Qed.

Lemma appends_then {A B} Q (m : M A) (f : A → M B) :
  appends_only Q m → (∀ a, appends_only Q (f a)) → appends_only Q (then_ m f).
Proof.
  intros Hm Hf h. unfold then_.
  destruct (Hm h) as (evs & Heq & Hevs).
  destruct (m h) as [[a | e | e] h'] eqn:Hmh; simpl in Heq; subst h'.
  - destruct (Hf a (h ++ evs)) as (evs' & Heq' & Hevs').
    exists (evs ++ evs'). split; [| by apply Forall_app].
    destruct (f a (h ++ evs)) as [[b | e | e] h''] eqn:Hfa; simpl in *;
      subst h''; by rewrite app_assoc.
  - by exists evs.
  - by exists evs.
Qed.

Lemma appends_promiseChunk_fold {A B} Q (cb : list A → M (list B)) chunks :
  Forall (fun c => appends_only Q (cb c)) chunks →
  ∀ acc : M (list B), appends_only Q acc →
  appends_only Q
    (fold_left
       (fun promise thingChunk =>
          then_ promise (fun results =>
          then_ (cb thingChunk) (fun chunkResults =>
          resolve (results ++ chunkResults))))
       chunks acc).
Proof.
  induction 1 as [|c chunks Hc _ IH]; intros acc Hacc; [done |].
  simpl. apply IH. apply appends_then; [done |]. intros results.
  apply appends_then; [done |]. intros r. apply appends_resolve.
Qed.

Lemma appends_all_in_order {A B} Q (f : A → M B) l :
  Forall (fun x => appends_only Q (f x)) l → appends_only Q (all_in_order f l).
Proof.
  induction 1 as [|x l Hx _ IH]; [apply appends_resolve |].
  simpl. apply appends_then; [done |]. intros r.
  apply appends_then; [done |]. intros rs. apply appends_resolve.
Qed.


(** ** copyContentNode and copyContentNodes *)

Lemma child_induction (P : child → Prop) :
  (∀ child_id child_children, Forall P child_children →
     P (Child child_id child_children)) →
  ∀ c, P c.
Proof.
  intros Hstep. fix IH 1. intros [child_id child_children].
  apply Hstep. induction child_children as [|c cs IHcs]; constructor; auto.
Qed.

Lemma copy_chunk_history E nodes h :
  (copy_chunk E nodes h).2 = h ++ copy_chunk_events nodes.
Proof.
  unfold copy_chunk, copy_chunk_events.
  destruct (build_nodeMap nodes); simpl; by rewrite ?app_nil_r.
Qed.

Lemma copy_chunk_bounded E nodes :
  length nodes ≤ 10 → appends_only (group_size_at_most 10) (copy_chunk E nodes).
Proof.
  intros Hlen h. exists (copy_chunk_events nodes).
  split; [apply copy_chunk_history |].
  unfold copy_chunk_events. destruct (build_nodeMap nodes); [| constructor ..].
  constructor; [| constructor]. simpl.
  constructor; [by rewrite length_map |].
  constructor; [by rewrite length_map | constructor].
Qed.

Lemma copyContentNode_body_bounded E self id target position deep children :
  Forall (fun c => ∀ t, appends_only (group_size_at_most 10) (self c t)) children →
  appends_only (group_size_at_most 10)
    (copyContentNode_body E self id target position deep children).
Proof.
  intros Hself. unfold copyContentNode_body.
  destruct (deep && negb (length children =? 0)); [apply appends_throw |].
  apply appends_then.
  { intros h. exists [ResourceCopy id target position deep].
    split; [done | by repeat constructor]. }
  intros nodes. apply appends_then; [by apply appends_commit |]. intros _.
  apply appends_then.
  { apply appends_promiseChunk_fold; [| apply appends_resolve].
    eapply Forall_impl; [apply (chunk_bounded 10 nodes) |].
    intros c [_ Hc]. by apply copy_chunk_bounded. }
  intros _. destruct (negb (length children =? 0)); [| apply appends_resolve].
  apply appends_then.
  - apply appends_all_in_order. eapply Forall_impl; [exact Hself |].
    intros c Hc. simpl. destruct nodes; [apply appends_throw | apply Hc].
  - intros [|childNodes results]; apply appends_resolve.
Qed.

Lemma copyContentNode_child_bounded E c :
  ∀ target, appends_only (group_size_at_most 10) (copyContentNode_child E c target).
Proof.
  induction c as [child_id child_children IH] using child_induction.
  intros target. simpl. by apply copyContentNode_body_bounded.
Qed.





(** Three ids copied deeply go out one at a time; twelve ids copied
    shallowly go out as a group of ten and a group of two. *)
Example copyContentNodes_deep_one_by_one :
  (copyContentNodes sample_collaborators ["a"; "b"; "c"] "t" true []).2 =
    [DispatchAll [copyContentNode_action "a" "t" (Some LAST_CHILD) true];
     DispatchAll [copyContentNode_action "b" "t" (Some LAST_CHILD) true];
     DispatchAll [copyContentNode_action "c" "t" (Some LAST_CHILD) true]].
Proof. reflexivity. Qed.

Example copyContentNodes_shallow_by_ten :
  map (fun e => match e with DispatchAll calls => length calls | _ => 0 end)
    (copyContentNodes sample_collaborators
       ["a"; "b"; "c"; "d"; "e"; "f"; "g"; "h"; "i"; "j"; "k"; "l"] "t" false []).2
  = [10; 2].
Proof. reflexivity. Qed.

(** C9. [copyContentNode] called with [deep] true and a non-empty
    [children] list throws [TypeError('Cannot use deep and specify
    children')] at once: no call reaches the resource or the store, the
    history is the one it was given. *)
Theorem copyContentNode_deep_with_children_throws
    (E : collaborators) id target position (children : list child) (h : history) :
  children ≠ [] →
  copyContentNode E id target position true children h =
    (Thrown (TypeError "Cannot use deep and specify children"), h).
Proof.
  intros Hchildren. unfold copyContentNode, copyContentNode_body.
  destruct children as [|c children]; [done |]. reflexivity.
Qed.

Lemma copyContentNode_deep_with_children_throws_witness :
  [Child "c1" []] ≠ [] ∧
  copyContentNode sample_collaborators "n1" "t1" LAST_CHILD true [Child "c1" []] [] =
    (Thrown (TypeError "Cannot use deep and specify children"), []).
Proof.
  split; [discriminate |].
  apply (copyContentNode_deep_with_children_throws
           sample_collaborators "n1" "t1" LAST_CHILD [Child "c1" []] []).
  discriminate.
Defined.

(** Without the clash the copy goes ahead: the resource is called first. *)
Lemma copyContentNode_otherwise_copies
    (E : collaborators) id target position (deep : bool) (children : list child) h :
  deep && negb (length children =? 0) = false →
  ∃ evs, (copyContentNode E id target position deep children h).2 =
           h ++ ResourceCopy id target position deep :: evs.
Proof.
  intros Hguard. unfold copyContentNode, copyContentNode_body. rewrite Hguard.
  set (K := fun nodes : list node => then_ _ _).
  assert (HK : ∀ nodes, appends_only (fun _ => True) (K nodes)).
  { intros nodes.
    unfold K. apply appends_then; [by apply appends_commit |]. intros _.
    apply appends_then.
    { apply appends_promiseChunk_fold; [| apply appends_resolve].
      apply Forall_forall. intros c _ h''. exists (copy_chunk_events c).
      split; [apply copy_chunk_history | by apply Forall_forall]. }
    intros _. destruct (negb (length children =? 0)); [| apply appends_resolve].
    apply appends_then.
    - apply appends_all_in_order, Forall_forall. intros c' _.
      destruct nodes; [apply appends_throw |].
      intros h''. destruct (copyContentNode_child_bounded E c' (Actions.id n) h'')
        as (evs & -> & _).
      exists evs. split; [done | by apply Forall_forall].
    - intros [|childNodes rs]; apply appends_resolve. }
  unfold then_ at 1.
  destruct (ContentNode_copy E h id target position deep) as [nodes | e | e].
  - destruct (HK nodes (h ++ [ResourceCopy id target position deep]))
      as (evs & Hevs & _).
    exists evs.
    destruct (K nodes _) as [[r | e | e] h']; simpl in *; subst h';
      by rewrite <- app_assoc.
  - by exists [].
  - by exists [].
Qed.

Example copyContentNode_with_children_run :
  (copyContentNode sample_collaborators "n1" "t1" LAST_CHILD false
     [Child "c1" []] []).2 =
    [ResourceCopy "n1" "t1" LAST_CHILD false;
     Commit (ADD_CONTENTNODES [ {| id := "n1-copy"; source_id := "n1" |} ]);
     DispatchAll
       [copyAssessmentItems ["n1"]
          {[ "n1" := {| id := "n1-copy"; source_id := "n1" |} ]};
        copyFiles ["n1"]
          {[ "n1" := {| id := "n1-copy"; source_id := "n1" |} ]}];
     ResourceCopy "c1" "n1-copy" LAST_CHILD false;
     Commit (ADD_CONTENTNODES [ {| id := "c1-copy"; source_id := "c1" |} ]);
     DispatchAll
       [copyAssessmentItems ["c1"]
          {[ "c1" := {| id := "c1-copy"; source_id := "c1" |} ]};
        copyFiles ["c1"]
          {[ "c1" := {| id := "c1-copy"; source_id := "c1" |} ]}]].
Proof. vm_compute. reflexivity. Qed.

(** ** generateContentNodeData and updateContentNode *)

Lemma param_not_undefined E (payload : jsobject) name :
  param E payload name ≠ JUndefined.
Proof.
  unfold param. destruct (payload !! name) as [[]|]; discriminate.
Qed.

Lemma copy_field_lookup E (payload d : jsobject) name k :
  copy_field E payload name d !! k =
    if decide (k = name) then
      if provided E payload name then Some (param E payload name) else d !! k
    else d !! k.
Proof.
  unfold copy_field, provided.
  destruct (is_NOVALUE E (param E payload name)); simpl.
  - by destruct (decide (k = name)).
  - destruct (decide (k = name)) as [->|].
    + apply lookup_insert_eq.
    + by apply lookup_insert_ne.
Qed.

Lemma copy_thumbnail_encoding_lookup E (payload d : jsobject) k :
  copy_thumbnail_encoding E payload d !! k =
    if decide (k = "thumbnail_encoding") then
      if provided E payload "thumbnail_encoding"
      then Some (JSON_stringify E (param E payload "thumbnail_encoding"))
      else d !! k
    else d !! k.
Proof.
  unfold copy_thumbnail_encoding, provided.
  destruct (is_NOVALUE E (param E payload "thumbnail_encoding")); simpl.
  - by destruct (decide (k = "thumbnail_encoding")).
  - destruct (decide (k = "thumbnail_encoding")) as [->|].
    + apply lookup_insert_eq.
    + by apply lookup_insert_ne.
Qed.

Lemma get_prop_sub_field v k :
  v ≠ JNull → v ≠ JUndefined → get_prop v k = Resolved (sub_field v k).
Proof. by destruct v. Qed.

Lemma copy_extra_field_resolved v k (target : jsobject) :
  v ≠ JNull → v ≠ JUndefined →
  copy_extra_field v k (Resolved (JObj target)) =
    Resolved (JObj (if truthy (sub_field v k)
                    then <[k := sub_field v k]> target else target)).
Proof.
  intros Hnull Hundef. unfold copy_extra_field.
  rewrite get_prop_sub_field by done. by destruct (truthy (sub_field v k)).
Qed.

Lemma copied_extra_fields_lookup v k :
  copied_extra_fields v !! k =
    if decide (k ∈ extra_fields_keys) then
      if truthy (sub_field v k) then Some (sub_field v k) else None
    else None.
Proof.
  destruct v; simpl; try (rewrite lookup_empty; by repeat case_match).
  rewrite map_lookup_filter. unfold get.
  destruct (props !! k) as [x|] eqn:Hk; simpl.
  - destruct (decide (k ∈ extra_fields_keys)) as [Hin|Hin].
    + destruct (truthy x) eqn:Hx.
      * rewrite option_guard_True; [done | by split].
      * rewrite option_guard_False; [done |]. intros [_ ?]. simpl in *. congruence.
    + rewrite option_guard_False; [done |]. by intros [? _].
  - by repeat case_match.
Qed.

Lemma copy_extra_fields_resolved E (payload d : jsobject) :
  param E payload "extra_fields" ≠ JNull →
  d !! "extra_fields" = None →
  copy_extra_fields E payload d =
    Resolved
      (if provided E payload "extra_fields"
       then <["extra_fields" :=
                JObj (copied_extra_fields (param E payload "extra_fields"))]> d
       else d).
Proof.
  intros Hnull Hd. unfold copy_extra_fields, provided.
  pose proof (param_not_undefined E payload "extra_fields") as Hundef.
  set (v := param E payload "extra_fields") in *.
  destruct (is_NOVALUE E v); [done |]. simpl negb. cbv iota.
  unfold get. rewrite Hd. simpl default. simpl truthy. cbv iota.
  rewrite !copy_extra_field_resolved by done.
  do 3 f_equal. apply map_eq. intros k.
  rewrite copied_extra_fields_lookup. unfold extra_fields_keys.
  destruct (decide (k = "randomize")) as [->|].
  { rewrite decide_True by set_solver.
    destruct (truthy (sub_field v "randomize")); [by rewrite lookup_insert_eq |].
    repeat (case_match; rewrite ?lookup_insert_ne by done); by rewrite ?lookup_empty. }
  destruct (decide (k = "n")) as [->|].
  { rewrite decide_True by set_solver.
    destruct (truthy (sub_field v "randomize"));
      rewrite ?lookup_insert_ne by done;
      (destruct (truthy (sub_field v "n")); [by rewrite lookup_insert_eq |]);
      repeat (case_match; rewrite ?lookup_insert_ne by done); by rewrite ?lookup_empty. }
  destruct (decide (k = "m")) as [->|].
  { rewrite decide_True by set_solver.
    destruct (truthy (sub_field v "randomize"));
      rewrite ?lookup_insert_ne by done;
      destruct (truthy (sub_field v "n"));
      rewrite ?lookup_insert_ne by done;
      (destruct (truthy (sub_field v "m")); [by rewrite lookup_insert_eq |]);
      repeat (case_match; rewrite ?lookup_insert_ne by done); by rewrite ?lookup_empty. }
  destruct (decide (k = "type")) as [->|].
  { rewrite decide_True by set_solver.
    destruct (truthy (sub_field v "randomize"));
      rewrite ?lookup_insert_ne by done;
      destruct (truthy (sub_field v "n"));
      rewrite ?lookup_insert_ne by done;
      destruct (truthy (sub_field v "m"));
      rewrite ?lookup_insert_ne by done;
      (destruct (truthy (sub_field v "type")); [by rewrite lookup_insert_eq |]);
      by rewrite ?lookup_empty. }
  rewrite decide_False
    by (rewrite !elem_of_cons, elem_of_nil; intros [?|[?|[?|[?|[]]]]]; done).
  repeat (case_match; rewrite ?lookup_insert_ne by done); by rewrite ?lookup_empty.
Qed.

Lemma not_in_contentNodeData_fields k :
  k ≠ "title" → k ≠ "description" → k ≠ "thumbnail_encoding" →
  k ≠ "language" → k ≠ "license" → k ≠ "license_description" →
  k ≠ "copyright_holder" → k ≠ "author" → k ≠ "role_visibility" →
  k ≠ "aggregator" → k ≠ "provider" → k ≠ "extra_fields" →
  k ≠ "prerequisite" → k ≠ "complete" →
  k ∉ contentNodeData_fields.
Proof.
  intros. unfold contentNodeData_fields.
  rewrite !elem_of_cons, elem_of_nil. intuition congruence.
Qed.

(** Looking a fixed name up through the assignments to other names. *)
Ltac skip_other_fields :=
  repeat first
    [ rewrite copy_field_lookup, decide_False by done
    | rewrite copy_thumbnail_encoding_lookup, decide_False by done
    | rewrite lookup_insert_ne by done ];
  rewrite ?lookup_empty.

(** One assignment of the chain, for an arbitrary name [k]: either [k] is
    the field assigned, or the lookup moves on. *)
Ltac this_field_or_next k name :=
  destruct (decide (k = name)) as [->|];
  [ rewrite (decide_True (P := name ∈ contentNodeData_fields))
      by (unfold contentNodeData_fields; set_solver);
    unfold committed_value;
    repeat (rewrite decide_False by done);
    destruct (provided _ _ name); [done | skip_other_fields; done]
  | ].

(** The object built before [changed] is considered holds, for every
    property name, what [expected_field] reads off the payload. *)
Lemma generateContentNodeData_fields E (payload : jsobject) :
  param E payload "extra_fields" ≠ JNull →
  ∃ d : jsobject,
    generateContentNodeData E payload =
      Resolved (if size d =? 0 then d else <["changed" := JBool true]> d) ∧
    ∀ k, d !! k = expected_field E payload k.
Proof.
  intros Hnull. unfold generateContentNodeData. cbv zeta.
  rewrite copy_extra_fields_resolved; [| done | skip_other_fields; done].
  destruct (provided E payload "extra_fields") eqn:Hef;
    (eexists; split; [reflexivity |]); intros k; unfold expected_field.
  all: rewrite copy_field_lookup; this_field_or_next k "complete".
  all: rewrite copy_field_lookup; this_field_or_next k "prerequisite".
  all: destruct (decide (k = "extra_fields")) as [->|];
    [ rewrite decide_True by (unfold contentNodeData_fields; set_solver);
      unfold committed_value;
      rewrite decide_False by done; rewrite decide_True by done;
      rewrite Hef, ?lookup_insert_eq; try done; skip_other_fields; done
    | rewrite ?lookup_insert_ne by done ].
  all: rewrite copy_field_lookup; this_field_or_next k "provider".
  all: rewrite copy_field_lookup; this_field_or_next k "aggregator".
  all: rewrite copy_field_lookup; this_field_or_next k "role_visibility".
  all: rewrite copy_field_lookup; this_field_or_next k "author".
  all: rewrite copy_field_lookup; this_field_or_next k "copyright_holder".
  all: rewrite copy_field_lookup; this_field_or_next k "license_description".
  all: rewrite copy_field_lookup; this_field_or_next k "license".
  all: rewrite copy_field_lookup; this_field_or_next k "language".
  all: rewrite copy_thumbnail_encoding_lookup;
    destruct (decide (k = "thumbnail_encoding")) as [->|];
    [ rewrite decide_True by (unfold contentNodeData_fields; set_solver);
      unfold committed_value; rewrite decide_True by done;
      destruct (provided E payload "thumbnail_encoding");
      [done | skip_other_fields; done]
    | ].
  all: rewrite copy_field_lookup; this_field_or_next k "description".
  all: rewrite copy_field_lookup; this_field_or_next k "title".
  all: rewrite lookup_empty;
    rewrite decide_False; [done | by apply not_in_contentNodeData_fields].
Qed.

Lemma expected_field_is_Some E (payload : jsobject) k :
  is_Some (expected_field E payload k) ↔
  k ∈ contentNodeData_fields ∧ provided E payload k = true.
Proof.
  unfold expected_field. destruct (decide (k ∈ contentNodeData_fields)).
  - destruct (provided E payload k); split.
    + done.
    + by eexists.
    + by intros [? ?].
    + by intros [_ ?].
  - split; [by intros [? ?] | by intros [? _]].
Qed.

Lemma generateContentNodeData_changed E (payload d : jsobject) :
  (∀ k, d !! k = expected_field E payload k) →
  (size d =? 0) = negb (existsb (provided E payload) contentNodeData_fields).
Proof.
  intros Hd. destruct (existsb _ _) eqn:Hex; simpl.
  - apply existsb_exists in Hex as (k & Hin & Hk).
    apply Nat.eqb_neq. intros Hsize. apply map_size_empty_iff in Hsize.
    assert (is_Some (d !! k)) as [v Hv].
    { rewrite Hd. apply expected_field_is_Some. split; [| done].
      by apply list_elem_of_In. }
    rewrite Hsize, lookup_empty in Hv. discriminate.
  - apply Nat.eqb_eq, map_size_empty_iff, map_empty. intros k.
    rewrite Hd. apply eq_None_not_Some.
    rewrite expected_field_is_Some. intros [Hin Hk].
    apply not_true_iff_false in Hex. apply Hex, existsb_exists.
    exists k. split; [by apply list_elem_of_In | done].
Qed.

(** C10, as the code has it. A call of [updateContentNode] with a truthy
    [id] (and an [extra_fields] that is not [null]) commits
    [UPDATE_CONTENTNODE] with [{ id, ...contentNodeData }] and then calls
    [ContentNode.update(id, contentNodeData)], where [contentNodeData]
    carries exactly those of the fourteen fields [generateContentNodeData]
    knows that the payload provides (fields that are missing, [undefined]
    or the sentinel are left out, and so is every field of another name);
    each carries the payload's value ([thumbnail_encoding] stringified,
    [extra_fields] reduced to its truthy [type], [m], [n], [randomize]);
    [changed] is set to [true] exactly when one of the known fields is
    provided; a partial update leaves every field it does not carry
    unchanged on the entity. *)
Theorem updateContentNode_commits_known_fields
    (E : collaborators) (arg : jsobject) (h : history) :
  truthy (get arg "id") = true →
  param E (delete "id" arg) "extra_fields" ≠ JNull →
  ∃ contentNodeData : jsobject,
    updateContentNode E arg h =
      (ContentNode_update E
         (h ++ [Commit (UPDATE_CONTENTNODE
                          (contentNodeData ∪ {["id" := get arg "id"]}))])
         (get arg "id") contentNodeData,
       h ++ [Commit (UPDATE_CONTENTNODE
                       (contentNodeData ∪ {["id" := get arg "id"]}));
             ResourceUpdate (get arg "id") contentNodeData]) ∧
    carries_provided_known_fields E (delete "id" arg) contentNodeData ∧
    (∀ k, k ≠ "changed" →
          contentNodeData !! k = expected_field E (delete "id" arg) k) ∧
    (∀ (entity : jsobject) k,
       contentNodeData !! k = None →
       merge_update contentNodeData entity !! k = entity !! k).
Proof.
  intros Hid Hnull.
  destruct (generateContentNodeData_fields E (delete "id" arg) Hnull)
    as (d & Hgen & Hd).
  pose proof (generateContentNodeData_changed E _ d Hd) as Hsize.
  set (payload := delete "id" arg) in *.
  set (data := if size d =? 0 then d else <["changed" := JBool true]> d) in *.
  assert (Hother : ∀ k, k ≠ "changed" → data !! k = expected_field E payload k).
  { intros k Hk. rewrite <- Hd. unfold data.
    destruct (size d =? 0); [done | by rewrite lookup_insert_ne]. }
  assert (Hnone : d !! "changed" = None).
  { rewrite Hd. unfold expected_field.
    rewrite decide_False; [done | by apply not_in_contentNodeData_fields]. }
  assert (Hchanged : data !! "changed" =
            if existsb (provided E payload) contentNodeData_fields
            then Some (JBool true) else None).
  { unfold data. rewrite Hsize.
    destruct (existsb _ _); simpl; [by rewrite lookup_insert_eq | done]. }
  exists data. split; [| split; [| split]].
  - unfold updateContentNode. rewrite Hid. simpl negb. cbv iota.
    fold payload. rewrite Hgen. cbv beta iota zeta delta [negb].
    by rewrite <- app_assoc.
  - split; [| split].
    + intros k Hk. rewrite Hother by done. apply expected_field_is_Some.
    + rewrite Hchanged. split.
      * intros (k & Hin & Hk).
        assert (existsb (provided E payload) contentNodeData_fields = true) as ->;
          [| done].
        apply existsb_exists. exists k. split; [by apply list_elem_of_In | done].
      * destruct (existsb _ _) eqn:Hex; [| discriminate]. intros _.
        apply existsb_exists in Hex as (k & Hin & Hk).
        exists k. split; [by apply list_elem_of_In | done].
    + rewrite Hchanged. destruct (existsb _ _); auto.
  - done.
  - intros entity k Hk. unfold merge_update.
    rewrite lookup_union, Hk. by destruct (entity !! k).
Qed.

Lemma updateContentNode_commits_known_fields_witness :
  truthy (get sample_update "id") = true ∧
  param sample_collaborators (delete "id" sample_update) "extra_fields" ≠ JNull ∧
  ∃ contentNodeData : jsobject,
    updateContentNode sample_collaborators sample_update [] =
      (ContentNode_update sample_collaborators
         ([] ++ [Commit (UPDATE_CONTENTNODE
                           (contentNodeData ∪ {["id" := get sample_update "id"]}))])
         (get sample_update "id") contentNodeData,
       [] ++ [Commit (UPDATE_CONTENTNODE
                        (contentNodeData ∪ {["id" := get sample_update "id"]}));
              ResourceUpdate (get sample_update "id") contentNodeData]) ∧
    carries_provided_known_fields sample_collaborators (delete "id" sample_update) contentNodeData ∧
    (∀ k, k ≠ "changed" →
          contentNodeData !! k =
            expected_field sample_collaborators (delete "id" sample_update) k) ∧
    (∀ (entity : jsobject) k,
       contentNodeData !! k = None →
       merge_update contentNodeData entity !! k = entity !! k).
Proof.
  split; [reflexivity |]. split; [intros H; vm_compute in H; discriminate |].
  apply (updateContentNode_commits_known_fields sample_collaborators sample_update []).
  - reflexivity.
  - intros H. vm_compute in H. discriminate.
Defined.

(** What the sample call commits: [parent] and [mastery] are dropped, the
    falsy [n] is dropped, [thumbnail_encoding] goes through
    [JSON.stringify]. *)
Example updateContentNode_sample_run :
  (updateContentNode sample_collaborators sample_update []).2 =
    [Commit (UPDATE_CONTENTNODE
       {[ "id" := JStr "n1"; "title" := JStr "Fractions";
          "thumbnail_encoding" := JStr "null";
          "extra_fields" := JObj {[ "type" := JStr "m_of_n"; "m" := JNum 3 ]};
          "changed" := JBool true ]});
     ResourceUpdate (JStr "n1")
       {[ "title" := JStr "Fractions";
          "thumbnail_encoding" := JStr "null";
          "extra_fields" := JObj {[ "type" := JStr "m_of_n"; "m" := JNum 3 ]};
          "changed" := JBool true ]}].
Proof. vm_compute. reflexivity. Qed.

(** C10, as stated, fails: a payload whose only field is [parent] provides
    a field, yet the update that is committed is empty: it neither carries
    [parent] nor sets [changed]. *)
Lemma updateContentNode_drops_unknown_field :
  updateContentNode sample_collaborators sample_update_of_parent [] =
    (Resolved (JStr "n1"),
     [Commit (UPDATE_CONTENTNODE {[ "id" := JStr "n1" ]});
      ResourceUpdate (JStr "n1") ∅]) ∧
  provided sample_collaborators (delete "id" sample_update_of_parent) "parent" = true ∧
  ¬ carries_every_provided_field sample_collaborators (delete "id" sample_update_of_parent) ∅.
Proof.
  split; [vm_compute; reflexivity |]. split; [reflexivity |].
  intros [_ Hchanged].
  assert (Hsome : ∃ k, provided sample_collaborators (delete "id" sample_update_of_parent) k = true)
    by (by exists "parent").
  specialize (Hchanged Hsome). rewrite lookup_empty in Hchanged. discriminate.
Qed.

(** The guards: a falsy [id] throws before anything is committed, and so
    does [extra_fields: null]. *)
Lemma updateContentNode_guards (E : collaborators) (arg : jsobject) h :
  (truthy (get arg "id") = false →
   updateContentNode E arg h =
     (Thrown (ReferenceError "id must be defined to update a contentNode"), h)) ∧
  (truthy (get arg "id") = true →
   arg !! "extra_fields" = Some JNull →
   ∃ e, updateContentNode E arg h = (Thrown e, h)).
Proof.
  split.
  - intros Hid. unfold updateContentNode. by rewrite Hid.
  - intros Hid Hnull. unfold updateContentNode. rewrite Hid. simpl negb. cbv iota.
    unfold generateContentNodeData. cbv zeta.
    assert (Hparam : param E (delete "id" arg) "extra_fields" = JNull).
    { unfold param. by rewrite lookup_delete_ne, Hnull by done. }
    unfold copy_extra_fields. rewrite Hparam. simpl.
    by eexists.
Qed.

(** ** The undo affordance of ContentNodeOptions *)





(** Removing a node: the move to the trash, then the snackbar whose action
    reverts; called with arguments or without, the action is the same
    call. *)
Example removeNode_run :
  ∃ options,
    (removeNode sample_collaborators sample_component "tracker-1" []).2 =
      [Dispatch (moveContentNodes_action ["n1"] "trash");
       Dispatch (showSnackbar options)] ∧
    text options = "Sent to trash" ∧ actionText options = "Undo" ∧
    actionCallback options [] = Revert "tracker-1" [] ∧
    actionCallback options [JStr "click"] = Revert "tracker-1" [].
Proof. eexists. repeat split. Qed.

(* ===================================================================== *)
(** * The change log and the change tracker *)
(* ===================================================================== *)

Import Changes.

(** ** Updates and their prior values *)




(** ** Inverses undo *)



Lemma commit_change_inv (src t k : string) (o : operation) (st st' : state) :
  commit_change src t k o st = Some st' →
  write (t, k) o (store st) = Some (store st') ∧
  log st' = log st ++ [ {| table := t; key := k; op := o; source := src;
                           sequence := next_sequence st; syncState := PENDING |} ] ∧
  next_sequence st' = S (next_sequence st).
Proof.
  unfold commit_change. destruct (write (t, k) o (store st)); [| done].
  by intros [= <-].
Qed.


(** ** The log stays ordered *)

Lemma StronglySorted_filter {A} (R : relation A) (P : A → Prop)
    `{∀ x, Decision (P x)} (l : list A) :
  StronglySorted R l → StronglySorted R (filter P l).
Proof.
  induction 1 as [|x l Hl IH Hx]; [constructor |].
  rewrite filter_cons. destruct (decide (P x)); [| done].
  constructor; [done |]. rewrite Forall_forall in Hx |- *.
  intros y Hy. apply Hx. by apply list_elem_of_filter in Hy as [_ ?].
Qed.


Lemma commit_change_ordered (src t k : string) (o : operation) (st st' : state) :
  commit_change src t k o st = Some st' → log_ordered st → log_ordered st'.
Proof.
  intros Hc [Hsorted Hbelow].
  apply commit_change_inv in Hc as (_ & Hlog & Hnext).
  unfold log_ordered. rewrite Hlog, Hnext. split.
  - apply StronglySorted_app_2; [| done | repeat constructor].
    intros x y Hx Hy. apply list_elem_of_singleton in Hy as ->. simpl.
    rewrite Forall_forall in Hbelow. by apply Hbelow.
  - apply Forall_app. split.
    + eapply Forall_impl; [exact Hbelow |]. simpl. lia.
    + constructor; [simpl; lia | constructor].
Qed.

Lemma revert_fold_ordered (l : list change) :
  ∀ st visits, log_ordered st →
    log_ordered (fold_left revert_one l (st, visits)).1.
Proof.
  induction l as [|c l IH]; intros st visits Hst; [done |].
  simpl. unfold revert_one at 2. simpl.
  destruct (commit_change _ _ _ _ st) as [st'|] eqn:Hc.
  - apply IH. by eapply commit_change_ordered.
  - by apply IH.
Qed.

Lemma set_syncState_sequence id s c : sequence (set_syncState id s c) = sequence c.
Proof. unfold set_syncState. by destruct (sequence c =? id). Qed.

Lemma mark_ordered id s st : log_ordered st → log_ordered (mark id s st).
Proof.
  intros [Hsorted Hbelow]. unfold log_ordered, mark. simpl. split.
  - apply (StronglySorted_fmap _ (fun a b => sequence a < sequence b)); [| done].
    intros x y. by rewrite !set_syncState_sequence.
  - apply Forall_fmap. eapply Forall_impl; [exact Hbelow |].
    intros c. simpl. by rewrite set_syncState_sequence.
Qed.

Lemma exec_ordered st c : log_ordered st → log_ordered (exec st c).
Proof.
  intros Hst. destruct c as [src m | s | id | id reason]; simpl.
  - destruct (mutate src m st) as [st'|] eqn:Hm; [| done]. simpl.
    unfold mutate in Hm.
    destruct (operation_of m (store st)) as [[[t k] o]|]; [| done].
    by eapply commit_change_ordered.
  - by apply revert_fold_ordered.
  - by apply mark_ordered.
  - by apply mark_ordered.
Qed.

Lemma run_ordered cs : ∀ st, log_ordered st → log_ordered (run cs st).
Proof.
  induction cs as [|c cs IH]; intros st Hst; [done |].
  simpl. apply IH. by apply exec_ordered.
Qed.

Lemma initial_ordered : log_ordered initial.
Proof. split; constructor. Qed.

(** ** A unit of work and its revert *)







(** What the sample session appends and what its revert appends: five
    forward records, then their five inverses from the last to the first,
    under the [REVERT] source. *)
Example sample_revert_log :
  map (fun c => (key c, type c, source c, sequence c))
    (log (revert (begin (run sample_history initial))
            (run (tracked sample_work) (run sample_history initial))).1) =
    [("T0", CREATED, "user", 0); ("S0", CREATED, "IGNORED_SOURCE", 1);
     ("T1", CREATED, "user", 2); ("T0", UPDATED, "user", 3);
     ("T1", MOVED, "user", 4); ("T2", COPIED, "user", 5);
     ("T0", DELETED, "user", 6);
     ("T0", CREATED, "REVERT/IGNORED_SOURCE", 7);
     ("T2", DELETED, "REVERT/IGNORED_SOURCE", 8);
     ("T1", MOVED, "REVERT/IGNORED_SOURCE", 9);
     ("T0", UPDATED, "REVERT/IGNORED_SOURCE", 10);
     ("T1", DELETED, "REVERT/IGNORED_SOURCE", 11)].
Proof. vm_compute. reflexivity. Qed.

(** The watermark has to be the sequence counter. Were it the sequence of
    the last record already in the log, [entriesSince] would hand that
    record to the revert too: a session that does nothing would, on revert,
    delete the topic created before it began. The same happens to a
    mutation made under an ignored source inside the session: it is not
    undone. *)
Example watermark_and_source_matter :
  let st0 := run [Mutate "user" (Create "contentnode" "T0" (topic "Algebra"))]
               initial in
  store (revert {| watermark := 0 |} st0).1 = ∅ ∧
  store (revert (begin st0) st0).1 = store st0 ∧
  store (revert (begin st0)
           (run [Mutate IGNORED_SOURCE (Delete "contentnode" "T0")] st0)).1 = ∅.
Proof. vm_compute. repeat split. Qed.

(** ** The log replays to the store *)

Lemma replay_snoc (k : string * string) (l : list change) (c : change) :
  replay k (l ++ [c]) =
    if decide ((table c, key c) = k) then replay_step (replay k l) c
    else replay k l.
Proof.
  unfold replay, entity_records. rewrite filter_app.
  destruct (decide ((table c, key c) = k)) as [Hk|Hk].
  - rewrite (filter_cons_True _ c []) by done. by rewrite fold_left_app.
  - rewrite (filter_cons_False _ c []) by done. by rewrite app_nil_r.
Qed.

Lemma write_lookup (k k' : string * string) (o : operation) (s s' : local_store) :
  write k o s = Some s' →
  s' !! k' = if decide (k = k') then default (s !! k) (apply_entity o (s !! k))
             else s !! k'.
Proof.
  unfold write. destruct (apply_entity o (s !! k)) as [[e|]|]; [| | done];
    intros [= <-]; simpl; destruct (decide (k = k')) as [->|].
  - apply lookup_insert_eq.
  - by apply lookup_insert_ne.
  - apply lookup_delete_eq.
  - by apply lookup_delete_ne.
Qed.

Lemma commit_change_mirrors (src t k : string) (o : operation) (st st' : state) :
  commit_change src t k o st = Some st' → mirrors st → mirrors st'.
Proof.
  intros Hc Hst k'.
  apply commit_change_inv in Hc as (Hw & Hlog & _).
  rewrite Hlog, replay_snoc, (write_lookup _ k' _ _ _ Hw). simpl.
  destruct (decide ((t, k) = k')) as [<-|]; [| apply Hst].
  unfold replay_step. simpl. by rewrite Hst.
Qed.

Lemma revert_fold_mirrors (l : list change) :
  ∀ st visits, mirrors st → mirrors (fold_left revert_one l (st, visits)).1.
Proof.
  induction l as [|c l IH]; intros st visits Hst; [done |].
  simpl. unfold revert_one at 2. simpl.
  destruct (commit_change _ _ _ _ st) as [st'|] eqn:Hc.
  - apply IH. by eapply commit_change_mirrors.
  - by apply IH.
Qed.

Lemma replay_set_syncState (k : string * string) id s (l : list change) :
  replay k (map (set_syncState id s) l) = replay k l.
Proof.
  unfold replay. generalize (@None entity) as current.
  induction l as [|c l IH]; intros current; [done |].
  assert (Hc : table (set_syncState id s c) = table c ∧
               key (set_syncState id s c) = key c ∧
               op (set_syncState id s c) = op c).
  { unfold set_syncState. by destruct (sequence c =? id). }
  destruct Hc as (Ht & Hk & Ho).
  unfold entity_records in *. simpl. rewrite !filter_cons, Ht, Hk.
  destruct (decide ((table c, key c) = k)); [| apply IH].
  simpl. unfold replay_step at 2 4. rewrite Ho. apply IH.
Qed.

Lemma exec_mirrors st c : mirrors st → mirrors (exec st c).
Proof.
  intros Hst. destruct c as [src m | s | id | id reason]; simpl.
  - destruct (mutate src m st) as [st'|] eqn:Hm; [| done]. simpl.
    unfold mutate in Hm.
    destruct (operation_of m (store st)) as [[[t k] o]|]; [| done].
    by eapply commit_change_mirrors.
  - by apply revert_fold_mirrors.
  - intros k. unfold markSynced, mark. simpl. rewrite replay_set_syncState. apply Hst.
  - intros k. unfold markFailed, mark. simpl. rewrite replay_set_syncState. apply Hst.
Qed.

Lemma run_mirrors cs : ∀ st, mirrors st → mirrors (run cs st).
Proof.
  induction cs as [|c cs IH]; intros st Hst; [done |].
  simpl. apply IH. by apply exec_mirrors.
Qed.

(** C2. After every operation (tracked or ignored mutations, reverts, sync
    marks, in any order from the empty state) and for every entity
    (table, key): the entity's Change Records stand in the log in strictly
    ascending sequence order, and folding them in that order from the empty
    state yields exactly the entity's row in the Local Store (no row when
    the entity does not exist). *)
Theorem log_replays_to_local_store (cs : list command) (k : string * string) :
  StronglySorted (fun a b => sequence a < sequence b)
    (entity_records k (log (run cs initial))) ∧
  replay k (log (run cs initial)) = store (run cs initial) !! k.
Proof.
  split.
  - apply StronglySorted_filter.
    apply (run_ordered cs initial initial_ordered).
  - apply run_mirrors. intros k'. unfold replay. simpl.
    by rewrite lookup_empty.
Qed.

Example replay_after_sample_revert :
  let st := (revert (begin (run sample_history initial))
               (run (tracked sample_work) (run sample_history initial))).1 in
  replay ("contentnode", "T0") (log st) = Some (topic "Algebra") ∧
  replay ("contentnode", "T1") (log st) = None ∧
  length (entity_records ("contentnode", "T0") (log st)) = 5.
Proof. vm_compute. repeat split. Qed.

(** ** What revert visits and emits *)




(** ** Ignored sources *)





(** Reverting the sample session twice: the second revert visits the five
    forward records again and none of the five inverse records. *)
Example second_revert_visits_forward_records_only :
  let st1 := run (tracked sample_work) (run sample_history initial) in
  let s := begin (run sample_history initial) in
  let st2 := (revert s st1).1 in
  map sequence (fst <$> (revert s st2).2) = [6; 5; 4; 3; 2] ∧
  map sequence (pending_for_sync (log st2)) = [0; 2; 3; 4; 5; 6].
Proof. vm_compute. split; reflexivity. Qed.

(* ===================================================================== *)
(** * More about the actions *)
(* ===================================================================== *)

(** ** What copyContentNode returns, and when a group of copies fails *)




Lemma then_resolved {A B} (m : M A) (f : A → M B) (h h' : history) (b : B) :
  then_ m f h = (Resolved b, h') →
  ∃ a h1, m h = (Resolved a, h1) ∧ f a h1 = (Resolved b, h').
Proof.
  unfold then_. destruct (m h) as [[a | e | e] h1]; [| done ..].
  intros Hf. exists a, h1. split; [done |].
  by destruct (f a h1) as [[b' | e | e] h2].
Qed.

(** X10. When [copyContentNode] resolves, the resource's copy call was
    resolved with some [nodes]; without children the result is [nodes];
    with children it is [nodes] followed by the nodes of the copy of the
    first child only, made under the first of [nodes]: what the copies of
    the other children return is not part of the result. *)
Theorem copyContentNode_returns_first_child_only
    (E : collaborators) (id target : string) (position : relative_position)
    (deep : bool) (children : list child) (h h' : history) (result : list node) :
  copyContentNode E id target position deep children h = (Resolved result, h') →
  ∃ nodes,
    ContentNode_copy E h id target position deep = Resolved nodes ∧
    match children with
    | [] => result = nodes
    | c :: _ =>
        ∃ first h1 h2 childNodes,
          head nodes = Some first ∧
          copyContentNode_child E c (Actions.id first) h1 = (Resolved childNodes, h2) ∧
          result = nodes ++ childNodes
    end.
Proof.
  unfold copyContentNode, copyContentNode_body. intros Hrun.
  destruct (deep && negb (length children =? 0)); [done |].
  apply then_resolved in Hrun as (nodes & h1 & Hcopy & Hrun).
  exists nodes. split; [by inversion Hcopy; destruct (ContentNode_copy E _ _ _ _ _) |].
  apply then_resolved in Hrun as (? & h2 & _ & Hrun).
  apply then_resolved in Hrun as (? & h3 & _ & Hrun).
  destruct children as [|c children]; simpl in Hrun.
  - by inversion Hrun.
  - apply then_resolved in Hrun as (results & h4 & Hall & Hrun).
    apply then_resolved in Hall as (childNodes & h5 & Hchild & Hall).
    apply then_resolved in Hall as (rest & h6 & _ & Hall).
    inversion Hall; subst results h6. inversion Hrun; subst.
    destruct nodes as [|first nodes]; [done |].
    by exists first, h3, h5, childNodes.
Qed.

Lemma copyContentNode_returns_first_child_only_witness :
  let run := copyContentNode sample_collaborators "a" "t" LAST_CHILD false
               [Child "b" []; Child "c" []] [] in
  run = (Resolved [ {| id := "a-copy"; source_id := "a" |};
                    {| id := "b-copy"; source_id := "b" |} ], run.2) ∧
  ∃ nodes,
    ContentNode_copy sample_collaborators [] "a" "t" LAST_CHILD false = Resolved nodes ∧
    ∃ first h1 h2 childNodes,
      head nodes = Some first ∧
      copyContentNode_child sample_collaborators (Child "b" []) (Actions.id first) h1 =
        (Resolved childNodes, h2) ∧
      [ {| id := "a-copy"; source_id := "a" |};
        {| id := "b-copy"; source_id := "b" |} ] = nodes ++ childNodes.
Proof.
  intros run.
  assert (Hrun : run = (Resolved [ {| id := "a-copy"; source_id := "a" |};
                                   {| id := "b-copy"; source_id := "b" |} ], run.2))
    by (vm_compute; reflexivity).
  split; [exact Hrun |].
  exact (copyContentNode_returns_first_child_only sample_collaborators "a" "t"
           LAST_CHILD false [Child "b" []; Child "c" []] [] run.2 _ Hrun).
Defined.

(* ===================================================================== *)
(** * The other actions of actions.js *)
(* ===================================================================== *)

Import NodeActions.

(** ** Started calls and their callbacks *)

Lemma start_all_spec {X} (B : backend) method (args : X → list jsval) items :
  ∀ h, length (start_all B method args items h).1 = length items ∧
       (start_all B method args items h).2 =
         h ++ map (fun x => Resource method (args x)) items.
Proof.
  induction items as [|x items IH]; intros h; simpl.
  - by rewrite app_nil_r.
  - destruct (IH (h ++ [Resource method (args x)])) as [Hlen Htrace].
    destruct (start_all B method args items _) as [replies h'].
    simpl in *. split; [by rewrite Hlen |]. by rewrite Htrace, <- app_assoc.
Qed.

Lemma continuations_in_order {X} (items : list X) (replies : list (settled jsval))
    (callback : X → jsval → list call) :
  length replies = length items →
  continuations items replies (seq 0 (length items)) callback =
    flat_map (fun xv => callback xv.1 xv.2) (fulfilled_items items replies).
Proof.
  unfold continuations, fulfilled_items.
  revert replies. induction items as [|x items IH]; intros [|r replies] Hlen;
    simpl in *; try done.
  rewrite <- seq_shift, flat_map_concat_map, map_map, <- flat_map_concat_map.
  simpl. rewrite IH by lia.
  destruct r; simpl; done.
Qed.

Lemma continuations_permutation {X} (items : list X) (replies : list (settled jsval))
    (schedule : list nat) (callback : X → jsval → list call) :
  schedule ≡ₚ seq 0 (length items) →
  length replies = length items →
  continuations items replies schedule callback ≡ₚ
    flat_map (fun xv => callback xv.1 xv.2) (fulfilled_items items replies).
Proof.
  intros Hperm Hlen. rewrite <- continuations_in_order by done.
  unfold continuations. by apply Permutation_flat_map.
Qed.

Lemma values_fulfilled {A} (replies : list (settled A)) :
  is_Some (values replies) ↔ Forall is_fulfilled replies.
Proof.
  induction replies as [|[a|e] replies IH]; simpl.
  - split; [constructor | by eexists].
  - rewrite fmap_is_Some, IH. split.
    + by constructor.
    + by inversion 1.
  - split; [by intros [? ?] | by inversion 1].
Qed.

Lemma any_failure_unfulfilled {A} (replies : list (settled A)) :
  values replies = None → is_Some (any_failure replies).
Proof.
  unfold any_failure. induction replies as [|[a|e] replies IH]; simpl.
  - done.
  - destruct (values replies); [done |]. intros _. by apply IH.
  - by eexists.
Qed.

Lemma Promise_all_resolved {A} (replies : list (settled A)) schedule :
  (∃ vs, Promise_all replies schedule = Resolved vs) ↔ Forall is_fulfilled replies.
Proof.
  rewrite <- values_fulfilled. unfold Promise_all.
  destruct (values replies) as [vs|] eqn:Hv.
  - split; [by eexists | by exists vs].
  - split; [| by intros [? ?]].
    destruct (any_failure_unfulfilled replies Hv) as [e He]. rewrite He.
    destruct (first_failure replies schedule); by intros [? ?].
Qed.

(** ** deleteContentNodes and moveContentNodes *)

(** X6. [deleteContentNodes] starts a delete for every id, in order,
    whether or not earlier ones succeed; once all calls have settled, in
    whatever order, the nodes committed as removed are exactly those whose
    delete was fulfilled, also when the whole is rejected; and the whole
    resolves exactly when every delete was fulfilled. *)
Theorem deleteContentNodes_removes_what_was_deleted
    (B : backend) (contentNodeIds : list jsval) (schedule : list nat) (h : trace) :
  schedule ≡ₚ seq 0 (length contentNodeIds) →
  ∃ commits,
    (deleteContentNodes B contentNodeIds schedule h).2 =
      h ++ map (fun id => Resource "delete" [id]) contentNodeIds ++ commits ∧
    commits ≡ₚ
      map (fun iv => removed iv.1)
        (fulfilled_items contentNodeIds
           (start_all B "delete" (fun id => [id]) contentNodeIds h).1) ∧
    ((∃ vs, (deleteContentNodes B contentNodeIds schedule h).1 = Resolved vs) ↔
     Forall is_fulfilled (start_all B "delete" (fun id => [id]) contentNodeIds h).1).
Proof.
  intros Hperm. unfold deleteContentNodes.
  destruct (start_all_spec B "delete" (fun id : jsval => [id]) contentNodeIds h)
    as [Hlen Htrace].
  destruct (start_all B "delete" _ contentNodeIds h) as [replies h'] eqn:Hstart.
  simpl in *. subst h'.
  exists (continuations contentNodeIds replies schedule (fun id _ => [removed id])).
  split; [by rewrite <- app_assoc |]. split.
  - rewrite (continuations_permutation _ _ _ _ Hperm Hlen).
    rewrite flat_map_concat_map.
    induction (fulfilled_items contentNodeIds replies) as [|iv l IH]; [done |].
    simpl. by rewrite IH.
  - rewrite Promise_all_resolved, Forall_fmap.
    apply Forall_iff. by intros [].
Qed.

Lemma deleteContentNodes_removes_what_was_deleted_witness :
  [1; 2; 0] ≡ₚ seq 0 (length [JStr "a"; JStr "gone"; JStr "b"]) ∧
  ∃ commits,
    (deleteContentNodes sample_backend [JStr "a"; JStr "gone"; JStr "b"] [1; 2; 0] []).2 =
      [] ++ map (fun id => Resource "delete" [id]) [JStr "a"; JStr "gone"; JStr "b"]
         ++ commits ∧
    commits ≡ₚ
      map (fun iv => removed iv.1)
        (fulfilled_items [JStr "a"; JStr "gone"; JStr "b"]
           (start_all sample_backend "delete" (fun id => [id])
              [JStr "a"; JStr "gone"; JStr "b"] []).1) ∧
    ((∃ vs, (deleteContentNodes sample_backend [JStr "a"; JStr "gone"; JStr "b"]
               [1; 2; 0] []).1 = Resolved vs) ↔
     Forall is_fulfilled
       (start_all sample_backend "delete" (fun id => [id])
          [JStr "a"; JStr "gone"; JStr "b"] []).1).
Proof.
  assert (Hperm : [1; 2; 0] ≡ₚ seq 0 (length [JStr "a"; JStr "gone"; JStr "b"])).
  { symmetry. exact (Permutation_cons_append [1; 2] 0). }
  split; [exact Hperm |].
  exact (deleteContentNodes_removes_what_was_deleted sample_backend
           [JStr "a"; JStr "gone"; JStr "b"] [1; 2; 0] [] Hperm).
Defined.

Example deleteContentNodes_partial_failure :
  deleteContentNodes sample_backend [JStr "a"; JStr "gone"; JStr "b"] [1; 2; 0] [] =
    (Rejected (Failure (JStr "not found")),
     [Resource "delete" [JStr "a"]; Resource "delete" [JStr "gone"];
      Resource "delete" [JStr "b"]; removed (JStr "b"); removed (JStr "a")]).
Proof. reflexivity. Qed.

(** X7. [moveContentNodes] asks for every id, in order, to be moved to the
    last-child position of the target; the store is updated with exactly
    the nodes the fulfilled moves returned; and when every move is
    fulfilled the result is [id__in] itself, in its own order, whatever the
    order in which the moves finished. *)
Theorem moveContentNodes_moves_to_last_child
    (B : backend) (id__in : list jsval) (target : jsval) (schedule : list nat)
    (h : trace) :
  schedule ≡ₚ seq 0 (length id__in) →
  let replies :=
    (start_all B "move" (fun id => [id; target; JStr "last-child"]) id__in h).1 in
  ∃ commits,
    (moveContentNodes B id__in target schedule h).2 =
      h ++ map (fun id => Resource "move" [id; target; JStr "last-child"]) id__in
        ++ commits ∧
    commits ≡ₚ
      map (fun iv => Commit "UPDATE_CONTENTNODE" iv.2) (fulfilled_items id__in replies) ∧
    (Forall is_fulfilled replies →
     (moveContentNodes B id__in target schedule h).1 = Resolved id__in) ∧
    (¬ Forall is_fulfilled replies →
     ∃ e, (moveContentNodes B id__in target schedule h).1 = Rejected e).
Proof.
  intros Hperm. unfold moveContentNodes.
  change (JStr (RELATIVE_TREE_POSITIONS LAST_CHILD)) with (JStr "last-child").
  set (args := fun id : jsval => [id; target; JStr "last-child"]).
  destruct (start_all_spec B "move" args id__in h) as [Hlen Htrace].
  destruct (start_all B "move" args id__in h) as [replies h'] eqn:Hstart.
  simpl in *. subst h'.
  exists (continuations id__in replies schedule
            (fun _ node => [Commit "UPDATE_CONTENTNODE" node])).
  split; [by rewrite <- app_assoc |]. split; [| split].
  - rewrite (continuations_permutation _ _ _ _ Hperm Hlen).
    rewrite flat_map_concat_map.
    induction (fulfilled_items id__in replies) as [|iv l IH]; [done |].
    simpl. by rewrite IH.
  - intros Hall. unfold Promise_all.
    assert (Hvalues : values (map (fun ir : jsval * settled jsval =>
                                     match ir.2 with
                                     | Fulfilled _ => Fulfilled ir.1
                                     | Failed e => Failed e
                                     end) (zip id__in replies)) = Some id__in).
    { clear Hstart Hperm. revert replies Hlen Hall.
      induction id__in as [|id ids IH]; intros [|r replies] Hlen Hall;
        simpl in *; try done.
      inversion Hall as [|? ? Hr Hrest]; subst. destruct r; [| done]. simpl.
      rewrite IH; [done | lia | done]. }
    by rewrite Hvalues.
  - intros Hnot.
    set (results := map _ (zip id__in replies)).
    destruct (Promise_all results schedule) as [vs | e | e] eqn:HP.
    + exfalso. apply Hnot.
      assert (Hres : Forall is_fulfilled results).
      { apply (Promise_all_resolved results schedule). by exists vs. }
      clear -Hres Hlen. subst results. revert replies Hlen Hres.
      induction id__in as [|id ids IH]; intros [|r replies] Hlen Hres;
        simpl in *; try done.
      inversion Hres as [|? ? Hr Hrest]; subst.
      constructor; [by destruct r | apply IH; [lia | done]].
    + by exists e.
    + exfalso. unfold Promise_all in HP.
      destruct (values results); [done |].
      by destruct (first_failure results schedule), (any_failure results).
Qed.

Lemma moveContentNodes_moves_to_last_child_witness :
  [1; 0] ≡ₚ seq 0 (length [JStr "a"; JStr "b"]) ∧
  ∃ commits,
    (moveContentNodes sample_backend [JStr "a"; JStr "b"] (JStr "t") [1; 0] []).2 =
      [] ++ map (fun id => Resource "move" [id; JStr "t"; JStr "last-child"])
              [JStr "a"; JStr "b"] ++ commits ∧
    commits ≡ₚ
      map (fun iv => Commit "UPDATE_CONTENTNODE" iv.2)
        (fulfilled_items [JStr "a"; JStr "b"]
           (start_all sample_backend "move"
              (fun id => [id; JStr "t"; JStr "last-child"]) [JStr "a"; JStr "b"] []).1).
Proof.
  assert (Hperm : [1; 0] ≡ₚ seq 0 (length [JStr "a"; JStr "b"]))
    by apply Permutation_swap.
  split; [exact Hperm |].
  destruct (moveContentNodes_moves_to_last_child sample_backend
              [JStr "a"; JStr "b"] (JStr "t") [1; 0] [] Hperm)
    as (commits & Htrace & Hcommits & _).
  by exists commits.
Defined.

(** ** Loading nodes and related resources *)


(** X2. [loadContentNode] never fails: when [ContentNode.get] is rejected
    the action resolves to [undefined] and commits nothing, and when it is
    fulfilled the node is committed and returned. [loadContentNodes], which
    has no [catch], passes the rejection on. *)
Theorem loadContentNode_swallows_failure
    (B : backend) (id params : jsval) (h : trace) :
  (∃ v, (loadContentNode B id h).1 = Resolved v ∧
        match ContentNode B h "get" [id] with
        | Fulfilled contentNode =>
            v = contentNode ∧
            (loadContentNode B id h).2 =
              h ++ [Resource "get" [id]; Commit "ADD_CONTENTNODE" contentNode]
        | Failed _ =>
            v = JUndefined ∧ (loadContentNode B id h).2 = h ++ [Resource "get" [id]]
        end) ∧
  let params' := match params with JUndefined => JObj ∅ | _ => params end in
  ∀ e, ContentNode B h "where" [params'] = Failed e →
       loadContentNodes B params h = (Rejected e, h ++ [Resource "where" [params']]).
Proof.
  split.
  - unfold loadContentNode, catch, chain, request, commit, resolved.
    destruct (ContentNode B h "get" [id]) as [contentNode | e]; simpl.
    + exists contentNode. by rewrite <- app_assoc.
    + by exists JUndefined.
  - intros params' e He. unfold loadContentNodes, chain, request.
    fold params'. by rewrite He.
Qed.

(** ** Previous and next steps *)

(** X3. Removing (adding) [nextStepId] as a next step of [targetId] makes
    the calls of removing (adding) [targetId] as a previous step of
    [nextStepId]: the commit first, then the resource call, with the two
    roles swapped. The promise of the resource call is not returned, so
    the next-step actions yield [undefined] whether or not the call
    succeeds. *)
Theorem next_step_is_previous_step_swapped
    (B : backend) (targetId nextStepId : jsval) (h : trace) :
  removeNextStepFromNode B targetId nextStepId h =
    (Resolved JUndefined,
     h ++ [Commit "REMOVE_PREVIOUS_STEP"
             (JObj {[ "target_node" := nextStepId; "prerequisite" := targetId ]});
           Resource "removePrerequisite" [nextStepId; targetId]]) ∧
  (removeNextStepFromNode B targetId nextStepId h).2 =
    (removePreviousStepFromNode B nextStepId targetId h).2 ∧
  addNextStepToNode B targetId nextStepId h =
    (Resolved JUndefined,
     h ++ [Commit "ADD_PREVIOUS_STEP"
             (JObj {[ "target_node" := nextStepId; "prerequisite" := targetId ]});
           Resource "addPrerequisite" [nextStepId; targetId]]) ∧
  (addNextStepToNode B targetId nextStepId h).2 =
    (addPreviousStepToNode B nextStepId targetId h).2.
Proof.
  unfold removeNextStepFromNode, addNextStepToNode, dropped,
    removePreviousStepFromNode, addPreviousStepToNode, request.
  repeat split;
    try (by destruct (ContentNode B _ _ _); simpl; rewrite <- app_assoc).
  all: by destruct (ContentNode B _ _ _).
Qed.

(** ** createContentNode *)

Lemma contentNodeData_of_payload (c : context) (kind parent : jsval)
    (contentDefaults payload : jsobject) (k : string) (v : jsval) :
  payload !! k = Some v →
  contentNodeData_of c kind parent contentDefaults payload !! k = Some v.
Proof. intros Hk. unfold contentNodeData_of. by apply lookup_union_Some_l. Qed.

Lemma contentNodeData_of_defaults (c : context) (kind parent : jsval)
    (contentDefaults payload : jsobject) (k : string) (v : jsval) :
  payload !! k = None → contentDefaults !! k = Some v →
  contentNodeData_of c kind parent contentDefaults payload !! k = Some v.
Proof.
  intros Hp Hd. unfold contentNodeData_of.
  rewrite lookup_union_r by done. by apply lookup_union_Some_l.
Qed.

(** X4. [createContentNode] first puts the new node and, when the put is
    rejected, neither updates a file nor commits anything. The node it
    puts takes every field of the payload as given (whatever the channel
    defaults or the fixed fields say), and for a topic it is the same
    whatever the channel's content defaults are. *)
Theorem createContentNode_puts_payload_first
    (B : backend) (c : context) (arg : jsobject) (h : trace) :
  (∀ contentDefaults, contentDefaults_for B c (kind_of B arg) = Resolved contentDefaults →
     ∃ contentNodeData,
       (∀ k v, k ≠ "parent" → k ≠ "kind" → arg !! k = Some v →
               contentNodeData !! k = Some v) ∧
       (∃ calls, (createContentNode B c arg h).2 =
                   h ++ Resource "put" [JObj contentNodeData] :: calls) ∧
       (∀ e, ContentNode B h "put" [JObj contentNodeData] = Failed e →
             createContentNode B c arg h =
               (Rejected e, h ++ [Resource "put" [JObj contentNodeData]]))) ∧
  (is_topic B (kind_of B arg) = true →
   ∀ defaults,
     createContentNode B c arg h =
     createContentNode B
       {| session_preferences := session_preferences c;
          session_currentLanguage := session_currentLanguage c;
          content_defaults := defaults |} arg h).
Proof.
  split.
  - intros contentDefaults Hd. unfold createContentNode. rewrite Hd.
    set (payload := delete "parent" (delete "kind" arg)).
    set (data := contentNodeData_of c (kind_of B arg) (get arg "parent")
                   contentDefaults payload).
    exists data. split; [| split].
    + intros k v Hp Hk Harg. apply contentNodeData_of_payload.
      subst payload. by rewrite !lookup_delete_ne.
    + unfold chain, request.
      destruct (ContentNode B h "put" [JObj data]) as [id | e].
      * unfold update_files, thrown, commit, resolved.
        destruct (get data "files"); simpl; rewrite <- ?app_assoc; by eexists.
      * by exists [].
    + intros e He. unfold chain, request. by rewrite He.
  - intros Htopic defaults. unfold createContentNode, contentDefaults_for.
    by rewrite Htopic.
Qed.

(** ** addTags and removeTags *)




(** ** checkSavingProgress *)

Lemma first_change_truthy (rows : list change_row) (table key : string) :
  truthy (first_change rows table key) = true ↔
  ∃ r, r ∈ rows ∧ row_table r = table ∧ row_key r = key.
Proof.
  unfold first_change.
  destruct (list_find _ rows) as [[i r]|] eqn:Hfind; simpl.
  - apply list_find_Some in Hfind as (Hi & [Ht Hk] & _).
    split; [| done]. intros _. exists r. split; [| done].
    by eapply list_elem_of_lookup_2.
  - split; [done |]. intros (r & Hin & Ht & Hk).
    apply list_find_None in Hfind.
    rewrite Forall_forall in Hfind. by destruct (Hfind r Hin).
Qed.

(** X8. [checkSavingProgress] answers [true] exactly when the table of
    changes has a row for one of the listed ids under the table of its own
    kind: a content node id under the content node table, a file id under
    the file table, an assessment item id under the assessment item
    table. An id recorded under another table does not count. *)
Theorem checkSavingProgress_finds_a_change_of_its_table
    (rows : list change_row) (contentNodeIds fileIds assessmentIds : list string) :
  checkSavingProgress rows contentNodeIds fileIds assessmentIds = true ↔
  ∃ r, r ∈ rows ∧
       ((row_table r = "contentnode" ∧ row_key r ∈ contentNodeIds) ∨
        (row_table r = "file" ∧ row_key r ∈ fileIds) ∨
        (row_table r = "assessmentitem" ∧ row_key r ∈ assessmentIds)).
Proof.
  unfold checkSavingProgress. rewrite existsb_exists. simpl. rewrite app_nil_r.
  split.
  - intros (v & Hin & Hv). rewrite !in_app_iff, !in_map_iff in Hin.
    destruct Hin as [(id & <- & Hid) | [(id & <- & Hid) | (id & <- & Hid)]];
      apply first_change_truthy in Hv as (r & Hr & Ht & Hk);
      exists r; (split; [done |]); subst id; apply list_elem_of_In in Hid; auto.
  - intros (r & Hr & Hcase). 
    destruct Hcase as [[Ht Hk] | [[Ht Hk] | [Ht Hk]]];
      apply list_elem_of_In in Hk.
    + exists (first_change rows TABLE_CONTENTNODE (row_key r)). split.
      * rewrite !in_app_iff, !in_map_iff. left. by exists (row_key r).
      * apply first_change_truthy. by exists r.
    + exists (first_change rows TABLE_FILE (row_key r)). split.
      * rewrite !in_app_iff, !in_map_iff. right. left. by exists (row_key r).
      * apply first_change_truthy. by exists r.
    + exists (first_change rows TABLE_ASSESSMENTITEM (row_key r)). split.
      * rewrite !in_app_iff, !in_map_iff. right. right. by exists (row_key r).
      * apply first_change_truthy. by exists r.
Qed.

(* ===================================================================== *)
(** * The menu of ContentNodeOptions.vue *)
(* ===================================================================== *)

Ltac in_list :=
  repeat first [apply list_elem_of_here | apply list_elem_of_further].

Ltac not_in_list H :=
  repeat (apply elem_of_cons in H as [H | H]; [discriminate H |]);
  by apply elem_of_nil in H.

(** X11. The menu always offers "copy to clipboard", so it is never
    empty. To someone who cannot edit it offers nothing else but "view
    details": no new subtopic, no editing, no move, no copy in place and
    no removal, whatever the node and the two hide props. With the right
    to edit, move, make a copy, copy to clipboard and remove are always
    the last four entries, in that order. "View details" is there exactly
    when it is not hidden. *)
Theorem menu_offers_changes_only_to_editors (v : Menu.view) :
  Menu.click_copyToClipboard ∈ map Menu.on_choice (Menu.template v) ∧
  (Menu.canEdit v = false →
   Forall (fun t => Menu.on_choice t = Menu.to_viewLink ∨
                    Menu.on_choice t = Menu.click_copyToClipboard)
          (Menu.template v)) ∧
  (Menu.canEdit v = true →
   [Menu.click_setMoveNodes; Menu.click_duplicateNode;
    Menu.click_copyToClipboard; Menu.click_removeNode]
     `suffix_of` map Menu.on_choice (Menu.template v)) ∧
  (Menu.to_viewLink ∈ map Menu.on_choice (Menu.template v) ↔
   Menu.hideDetailsLink v = false).
Proof.
  destruct v as [topic edit hideEdit hideDetails].
  unfold Menu.template, Menu.v_if. cbn [Menu.isTopic Menu.canEdit Menu.hideEditLink
                                         Menu.hideDetailsLink].
  split; [| split; [| split]].
  - destruct topic, edit, hideEdit, hideDetails; cbn; in_list.
  - intros ->. destruct topic, hideEdit, hideDetails; cbn;
      repeat first [apply List.Forall_nil | apply List.Forall_cons; [cbn; auto |]].
  - intros ->. destruct topic, hideEdit, hideDetails; cbn;
      first [by exists [] | by eexists [_] | by eexists [_; _] | by eexists [_; _; _]].
  - destruct hideDetails; split; intros H; try done.
    + destruct topic, edit, hideEdit; cbn in H; not_in_list H.
    + destruct topic, edit, hideEdit; cbn; in_list.
Qed.

(* ===================================================================== *)
(** * The draggable plugin *)
(* ===================================================================== *)

Section plugin.
Import DraggablePlugin.

(** Two levels of [store.dispatch] are all the plugin ever needs: the
    action it passes on is none of the two it listens for. *)
Lemma dispatch_enough (fuel : nat) (a : action) (w : world) :
  dispatch (2 + fuel) a w =
    Some
      (if String.eqb (type a) "draggable/handles/setActiveDraggable" then
         {| dispatched := dispatched w ++
              [a; {| type := "draggable/setActiveDraggable"; payload := payload a |}];
            listening := true |}
       else if String.eqb (type a) "draggable/handles/resetActiveDraggable" then
         {| dispatched := dispatched w ++
              [a; {| type := "draggable/resetActiveDraggable"; payload := payload a |}];
            listening := false |}
       else {| dispatched := dispatched w ++ [a]; listening := listening w |}).
Proof.
  change (dispatch (2 + fuel) a w)
    with (subscriber (dispatch (1 + fuel)) a
            {| dispatched := dispatched w ++ [a]; listening := listening w |}).
  unfold subscriber.
  destruct (String.eqb (type a) "draggable/handles/setActiveDraggable").
  - cbn. by rewrite <- app_assoc.
  - destruct (String.eqb (type a) "draggable/handles/resetActiveDraggable").
    + cbn. by rewrite <- app_assoc.
    + done.
Qed.

Lemma passed_on_app (l l' : list action) :
  passed_on l → passed_on l' → passed_on (l ++ l').
Proof.
  intros Hl Hl'. induction l as [|a l IH]; [done |].
  destruct Hl as [Ha Hl]. split; [| by apply IH].
  destruct l as [|b l]; [| exact Ha].
  destruct (String.eqb (type a) _); [done |].
  by destruct (String.eqb (type a) _).
Qed.

Lemma dragging_app (l l' : list action) :
  dragging (l ++ l') =
    fold_left
      (fun d a =>
         if String.eqb (type a) "draggable/handles/setActiveDraggable" then true
         else if String.eqb (type a) "draggable/handles/resetActiveDraggable" then false
         else d)
      l' (dragging l).
Proof. unfold dragging. by rewrite fold_left_app. Qed.

Lemma dispatch_keeps (fuel : nat) (a : action) (w : world) :
  listening w = dragging (dispatched w) → passed_on (dispatched w) →
  ∃ w', dispatch (2 + fuel) a w = Some w' ∧
        listening w' = dragging (dispatched w') ∧ passed_on (dispatched w').
Proof.
  intros Hlisten Hpassed. rewrite dispatch_enough. eexists. split; [done |].
  destruct (String.eqb (type a) "draggable/handles/setActiveDraggable") eqn:Hset;
    [| destruct (String.eqb (type a) "draggable/handles/resetActiveDraggable") eqn:Hreset];
    cbn [dispatched listening]; rewrite dragging_app; cbn [fold_left type];
    rewrite ?Hset, ?Hreset; cbn; (split; [done |]);
    apply passed_on_app; try done; cbn; rewrite ?Hset, ?Hreset; done.
Qed.

End plugin.

(** X12. Whatever actions are dispatched and whatever keys are pressed
    after the plugin is installed, every dispatch comes to an end, each
    of the two handle actions is passed on at once, with its payload, to
    the action of the same name of the draggable module, and the window
    listens for the cancelling key exactly while a handle is active: after
    a [setActiveDraggable] of a handle that no [resetActiveDraggable] has
    followed. *)
Theorem plugin_listens_while_a_handle_is_active
    (fuel : nat) (inputs : list DraggablePlugin.input) :
  ∃ w, DraggablePlugin.run (2 + fuel) inputs DraggablePlugin.installed = Some w ∧
       DraggablePlugin.listening w =
         DraggablePlugin.dragging (DraggablePlugin.dispatched w) ∧
       DraggablePlugin.passed_on (DraggablePlugin.dispatched w).
Proof.
  assert (Hgen : ∀ w0,
    DraggablePlugin.listening w0 =
      DraggablePlugin.dragging (DraggablePlugin.dispatched w0) →
    DraggablePlugin.passed_on (DraggablePlugin.dispatched w0) →
    ∃ w, DraggablePlugin.run (2 + fuel) inputs w0 = Some w ∧
         DraggablePlugin.listening w =
           DraggablePlugin.dragging (DraggablePlugin.dispatched w) ∧
         DraggablePlugin.passed_on (DraggablePlugin.dispatched w)).
  { induction inputs as [|i inputs IH]; intros w0 Hlisten Hpassed.
    - by exists w0.
    - assert (Hstep : ∃ w1, DraggablePlugin.step (2 + fuel) i w0 = Some w1 ∧
                DraggablePlugin.listening w1 =
                  DraggablePlugin.dragging (DraggablePlugin.dispatched w1) ∧
                DraggablePlugin.passed_on (DraggablePlugin.dispatched w1)).
      { destruct i as [a | e]; unfold DraggablePlugin.step.
        - by apply dispatch_keeps.
        - destruct (DraggablePlugin.listening w0) eqn:Hl; [| by exists w0; rewrite Hl].
          unfold DraggablePlugin.cancelEventListener.
          match goal with |- context [if ?b then _ else _] => destruct b end;
            [by apply dispatch_keeps; [rewrite Hl |] | by exists w0; rewrite Hl]. }
      destruct Hstep as (w1 & Hstep & Hlisten1 & Hpassed1).
      destruct (IH w1 Hlisten1 Hpassed1) as (w & Hrun & Hw).
      exists w. split; [| done].
      change (DraggablePlugin.run (2 + fuel) (i :: inputs) w0)
        with (DraggablePlugin.step (2 + fuel) i w0 ≫=
                DraggablePlugin.run (2 + fuel) inputs).
      by rewrite Hstep. }
  by apply Hgen.
Qed.

(** X13. While a handle is active, a key press whose [code] is
    ['Escape'], or, for an event without [code], whose [which] is 27,
    dispatches the handle's [resetActiveDraggable], which is passed on to
    the module, and ends the listening. Any other key does nothing, also
    one whose [code] is another key while [which] is 27. When no handle
    is active no key does anything. *)
Theorem escape_cancels_the_active_drag
    (fuel : nat) (e : DraggablePlugin.keyboard_event) (w : DraggablePlugin.world) :
  let pressed := DraggablePlugin.step (2 + fuel) (DraggablePlugin.Keydown e) w in
  let cancelled :=
    {| DraggablePlugin.dispatched :=
         DraggablePlugin.dispatched w ++
           [ {| DraggablePlugin.type := "draggable/handles/resetActiveDraggable";
                DraggablePlugin.payload := JUndefined |};
             {| DraggablePlugin.type := "draggable/resetActiveDraggable";
                DraggablePlugin.payload := JUndefined |} ];
       DraggablePlugin.listening := false |} in
  (DraggablePlugin.listening w = false → pressed = Some w) ∧
  (DraggablePlugin.listening w = true →
   (DraggablePlugin.code e = Some (JStr "Escape") → pressed = Some cancelled) ∧
   (DraggablePlugin.code e = None → DraggablePlugin.which e = JNum 27 →
    pressed = Some cancelled) ∧
   (∀ c, DraggablePlugin.code e = Some c → c ≠ JStr "Escape" → pressed = Some w) ∧
   (DraggablePlugin.code e = None → DraggablePlugin.which e ≠ JNum 27 →
    pressed = Some w)).
Proof.
  intros pressed cancelled. subst pressed. unfold DraggablePlugin.step.
  split; [by intros -> |]. intros ->.
  unfold DraggablePlugin.cancelEventListener.
  split; [| split; [| split]].
  - intros ->. cbn [DraggablePlugin.is_Escape String.eqb Ascii.eqb Bool.eqb].
    by rewrite dispatch_enough.
  - intros -> ->. cbn [DraggablePlugin.is_27 Z.eqb Pos.eqb].
    by rewrite dispatch_enough.
  - intros c -> Hc. destruct c as [| | | | s | | |]; try done. cbn.
    destruct (String.eqb_spec s "Escape") as [-> | Hne]; done.
  - intros -> Hwhich.
    destruct (DraggablePlugin.which e) as [| | | n | | | |]; try done. cbn.
    destruct (Z.eqb_spec n 27) as [-> | Hne]; done.
Qed.

(* ===================================================================== *)
(** * The draggable container mixin *)
(* ===================================================================== *)

Section mixin.
Import DraggableMixin.

Lemma follows_app (events events' : list string) :
  ∀ entered over,
    follows entered over (events ++ events') =
      match follows entered over events with
      | Some (entered', over') => follows entered' over' events'
      | None => None
      end.
Proof.
  induction events as [|event events IH]; intros entered over; [done |].
  cbn [app follows].
  repeat match goal with
         | |- context [if ?b then _ else _] => destruct b
         end; auto.
Qed.

Ltac read_events H :=
  unfold well_formed, emitted in *; cbn in *;
  rewrite ?omap_app, ?follows_app, ?H; cbn; rewrite ?H; cbn.

Lemma emitDraggableDragLeave_keeps (c : component) (over : bool) :
  well_formed c over →
  well_formed (emitDraggableDragLeave c) (if draggableDragEntered c then false else over)
  ∧ draggableDragEntered (emitDraggableDragLeave c) = false.
Proof.
  destruct c as [[] effs]; intros H; unfold emitDraggableDragLeave; cbn;
    (split; [| done]); [| done].
  by read_events H.
Qed.

Lemma emitDraggableDragEnter_keeps (fuel : nat) (r : reading) (c : component)
    (over : bool) :
  well_formed c over →
  ∃ c' over',
    emitDraggableDragEnter (2 + fuel) r c = Some c' ∧ well_formed c' over' ∧
    (isInActiveDraggableUniverse r = true →
     draggableDragEntered c' = true ∧
     (draggableDragEntered c = false → over' = true)).
Proof.
  destruct c as [entered effs], r as [inUniverse effect e_effect]; intros H.
  destruct entered, inUniverse; cbn.
  - eexists _, over. split; [done |]. split; [by read_events H | done].
  - eexists _, false. split; [done |]. split; [by read_events H | done].
  - destruct (negb (String.eqb e_effect effect)); cbn;
      eexists _, true; (split; [done |]); (split; [by read_events H | done]).
  - eexists _, over. split; [done |]. split; [by read_events H | done].
Qed.

Lemma emitDraggableDragOver_keeps (fuel : nat) (r : reading) (c : component)
    (over : bool) :
  well_formed c over →
  ∃ c' over',
    emitDraggableDragOver (3 + fuel) r c = Some c' ∧ well_formed c' over' ∧
    (isInActiveDraggableUniverse r = true →
     draggableDragEntered c' = true ∧ over' = true).
Proof.
  intros H. destruct (draggableDragEntered c) eqn:Hentered.
  - destruct c as [entered effs]. cbn in Hentered. subst entered. cbn.
    eexists _, true. split; [done |]. split; [by read_events H | done].
  - destruct (emitDraggableDragEnter_keeps fuel r c over H)
      as (c' & over' & Hrun & Hwf & Hinside).
    exists c', over'. split; [| split; [done |]].
    + change (emitDraggableDragOver (3 + fuel) r c)
        with (if negb (draggableDragEntered c)
              then emitDraggableDragEnter (2 + fuel) r c
              else Some (does [cancel_debouncedResetHoverDraggable;
                               emit "draggableDragOver";
                               throttledUpdateHoverDraggable] c)).
      by rewrite Hentered.
    + intros Hin. destruct (Hinside Hin) as [? Hover]. by split; [| apply Hover].
Qed.

Lemma emitDraggableDragEnter_more_fuel (fuel : nat) (r : reading) (c : component)
    (over : bool) :
  well_formed c over →
  ∃ c' over',
    emitDraggableDragEnter (3 + fuel) r c = Some c' ∧ well_formed c' over'.
Proof.
  intros H.
  destruct (emitDraggableDragEnter_keeps (1 + fuel) r c over H)
    as (c' & over' & Hrun & Hwf & _).
  by exists c', over'.
Qed.

Lemma emitDraggableDrop_keeps (fuel : nat) (r : reading) (c : component)
    (over : bool) :
  well_formed c over →
  ∃ c' over', emitDraggableDrop (3 + fuel) r c = Some c' ∧ well_formed c' over'.
Proof.
  intros H. unfold emitDraggableDrop.
  destruct (isDropAllowed r) eqn:Hallowed; [| by exists c, over].
  assert (Hin : isInActiveDraggableUniverse r = true).
  { unfold isDropAllowed, activeDropEffect in Hallowed.
    by destruct (isInActiveDraggableUniverse r). }
  destruct (emitDraggableDragOver_keeps fuel r c over H)
    as (c' & over' & Hrun & Hwf & Hinside).
  destruct (Hinside Hin) as [Hentered ->].
  rewrite Hrun. cbn. eexists _, false. split; [done |].
  destruct c' as [entered effs]. cbn in Hentered. subst entered.
  by read_events Hwf.
Qed.

End mixin.

(** X14. Whatever drag events a container is given, in whatever order and
    whether or not it is in the universe of the active draggable, every
    handler comes to an end (the calls between [emitDraggableDragEnter]
    and [emitDraggableDragOver] are at most three deep), and the events it
    emits to its parent read well: [draggableDragEnter] and
    [draggableDragLeave] alternate, starting with an enter;
    [draggableDragOver] and [draggableDrop] come only between an enter and
    its leave; a [draggableDrop] comes right after a [draggableDragOver];
    and [draggableDragEntered] is true exactly after an enter that no
    leave has followed. *)
Theorem draggable_events_are_well_bracketed
    (fuel : nat)
    (events : list (DraggableMixin.handler * DraggableMixin.reading)) :
  ∃ c over,
    DraggableMixin.handle_all (3 + fuel) events DraggableMixin.created = Some c ∧
    DraggableMixin.follows false false (DraggableMixin.emitted c) =
      Some (DraggableMixin.draggableDragEntered c, over).
Proof.
  assert (Hgen : ∀ c0 over0, DraggableMixin.well_formed c0 over0 →
    ∃ c over,
      DraggableMixin.handle_all (3 + fuel) events c0 = Some c ∧
      DraggableMixin.well_formed c over).
  { induction events as [|[handler r] events IH]; intros c0 over0 H0.
    - by exists c0, over0.
    - assert (Hstep : ∃ c1 over1,
                DraggableMixin.handle (3 + fuel) (handler, r) c0 = Some c1 ∧
                DraggableMixin.well_formed c1 over1).
      { destruct handler; unfold DraggableMixin.handle; cbn [fst snd].
        - by eapply emitDraggableDragEnter_more_fuel.
        - destruct (emitDraggableDragOver_keeps fuel r c0 over0 H0)
            as (c1 & over1 & ? & ? & _). by exists c1, over1.
        - eexists _, _. split; [done |].
          by apply emitDraggableDragLeave_keeps.
        - by eapply emitDraggableDrop_keeps. }
      destruct Hstep as (c1 & over1 & Hstep & H1).
      destruct (IH c1 over1 H1) as (c & over & Hrun & Hc).
      exists c, over. split; [| done].
      change (DraggableMixin.handle_all (3 + fuel) ((handler, r) :: events) c0)
        with (DraggableMixin.handle (3 + fuel) (handler, r) c0 ≫=
                DraggableMixin.handle_all (3 + fuel) events).
      by rewrite Hstep. }
  by apply (Hgen DraggableMixin.created false).
Qed.

(** X15. A drop is emitted only when dropping is allowed: the container
    is in the universe of the active draggable and its drop effect is not
    ['none']. Then the drop is emitted after an over of the same event,
    with the component entered; otherwise [emitDraggableDrop] does
    nothing at all. *)
Theorem drop_is_emitted_only_when_allowed
    (fuel : nat) (r : DraggableMixin.reading) (c : DraggableMixin.component) :
  if DraggableMixin.isInActiveDraggableUniverse r &&
     negb (String.eqb (DraggableMixin.dropEffect r) "none")
  then
    ∃ c' before,
      DraggableMixin.emitDraggableDrop (3 + fuel) r c = Some c' ∧
      DraggableMixin.draggableDragEntered c' = true ∧
      DraggableMixin.emitted c' =
        DraggableMixin.emitted c ++ before ++ ["draggableDragOver"; "draggableDrop"] ∧
      before = if DraggableMixin.draggableDragEntered c then []
               else ["draggableDragEnter"]
  else DraggableMixin.emitDraggableDrop (3 + fuel) r c = Some c.
Proof.
  destruct r as [inUniverse effect e_effect], c as [entered effs].
  unfold DraggableMixin.emitDraggableDrop, DraggableMixin.isDropAllowed,
    DraggableMixin.activeDropEffect.
  cbn [DraggableMixin.isInActiveDraggableUniverse DraggableMixin.dropEffect
       DraggableMixin.draggableDragEntered].
  destruct inUniverse; cbn [andb]; [| done].
  destruct (negb (String.eqb effect "none")); [| done].
  destruct entered.
  - cbn. eexists _, []. split; [done |]. split; [done |]. split; [| done].
    unfold DraggableMixin.emitted. cbn. rewrite !omap_app. cbn.
    by rewrite <- !app_assoc.
  - cbn. destruct (negb (String.eqb e_effect effect)); cbn;
      (eexists _, ["draggableDragEnter"]; split; [done |]; split; [done |];
       split; [| done]);
      unfold DraggableMixin.emitted; cbn; rewrite !omap_app; cbn;
      by rewrite <- !app_assoc.
Qed.
